(** * stylelint-design-token-guard: the token-matching rule

    A shallow embedding of [src/helpers.ts], [src/types.ts] and the rule
    implementation [ruleImpl] (design-token-guard/enforce-tokens), followed by
    the properties of the matching engine.

    Conventions of the embedding.
    - JavaScript strings are [string]s; the stylesheets and catalogs
      considered are ASCII, so [length] counts characters as JS does.
    - JavaScript numbers are [number]s: NaN, the two infinities and the finite
      values, the latter kept as exact rationals in lowest terms.  Binary
      rounding, overflow and the sign of zero are not represented.
    - A JavaScript object used as a map is a [JSObject]: its own enumerable
      properties as an association list in [for ... in] order.  A property
      test such as [if (tokens[key])] is a test of truthiness: the key is
      there and its value is not the empty string.
    - [Array.prototype.sort] is a stable sort.
    - The state the rule changes is passed along: the value of the
      declaration at hand and the warnings of the postcss result.  A node of
      the parsed value is changed in place by the callback; the walk carries
      the tree it is in, so that the callback can serialize it.
    - The value tokenizer (postcss-value-parser), its serializer and the
      tokens file are external to the repository; they enter as Section
      variables.  [walk] follows the tokenizer's own: a callback that returns
      [false] keeps the walk out of the children of the node, no more.  The
      concrete runs use a tokenizer for values made of words and spaces. *)

From Stdlib Require Import Bool Arith ZArith QArith Qabs Lia Lqa.
From Stdlib Require Import Ascii String List Permutation Sorted.
Import ListNotations.

Local Open Scope nat_scope.
Local Open Scope list_scope.
Local Open Scope string_scope.

(** ** JavaScript strings *)

Module JSString.

(** [s.endsWith(suffix)] *)
Definition endsWith (s suffix : string) : bool :=
  (String.length suffix <=? String.length s)%nat
  && (substring (String.length s - String.length suffix) (String.length suffix) s =? suffix).

(** What follows [p] in [s] when [s.startsWith(p)], [None] otherwise. *)
Fixpoint stripPrefix (p s : string) : option string :=
  match p, s with
  | EmptyString, _ => Some s
  | String a p', String b s' => if (a =? b)%char then stripPrefix p' s' else None
  | String _ _, EmptyString => None
  end.

(** [s.substring(0, n)] *)
Definition substring0 (n : nat) (s : string) : string := substring 0 n s.

(** A string is falsy exactly when it is empty. *)
Definition truthy (s : string) : bool := negb (s =? "").

Definition lowerChar (c : ascii) : ascii :=
  let n := nat_of_ascii c in
  if (65 <=? n)%nat && (n <=? 90)%nat then ascii_of_nat (n + 32) else c.

(** [s.toLowerCase()] on ASCII text *)
Fixpoint toLowerCase (s : string) : string :=
  match s with
  | EmptyString => EmptyString
  | String c r => String (lowerChar c) (toLowerCase r)
  end.

(** [parts.join(sep)] *)
Fixpoint join (sep : string) (parts : list string) : string :=
  match parts with
  | [] => ""
  | [p] => p
  | p :: rest => p ++ sep ++ join sep rest
  end.

End JSString.

(** ** JavaScript numbers *)

Module JSNumber.

Inductive number : Type :=
| NaN
| Infinity (negative : bool)
| Finite (q : Q).

Definition zero : number := Finite 0.

Definition isNaN (x : number) : bool :=
  match x with NaN => true | _ => false end.

(** [a - b] *)
Definition sub (a b : number) : number :=
  match a, b with
  | NaN, _ | _, NaN => NaN
  | Infinity s, Infinity t => if Bool.eqb s t then NaN else Infinity s
  | Infinity s, Finite _ => Infinity s
  | Finite _, Infinity t => Infinity (negb t)
  | Finite x, Finite y => Finite (Qred (x - y))
  end.

(** [Math.abs(a)] *)
Definition abs (a : number) : number :=
  match a with
  | NaN => NaN
  | Infinity _ => Infinity false
  | Finite x => Finite (Qred (Qabs x))
  end.

Definition Qltb (x y : Q) : bool := negb (Qle_bool y x).

(** [a < b]; any comparison with NaN is false. *)
Definition ltb (a b : number) : bool :=
  match a, b with
  | NaN, _ | _, NaN => false
  | Infinity s, Infinity t => s && negb t
  | Infinity s, Finite _ => s
  | Finite _, Infinity t => negb t
  | Finite x, Finite y => Qltb x y
  end.

(** [a > b] *)
Definition gtb (a b : number) : bool := ltb b a.

(** [a <= b] *)
Definition leb (a b : number) : bool :=
  match a, b with
  | NaN, _ | _, NaN => false
  | Infinity s, Infinity t => s || negb t
  | Infinity s, Finite _ => s
  | Finite _, Infinity t => negb t
  | Finite x, Finite y => Qle_bool x y
  end.

(** [a >= b] *)
Definition geb (a b : number) : bool := leb b a.

(** [a === b] *)
Definition eqb (a b : number) : bool := leb a b && leb b a.

(** *** parseFloat

    [parseFloat] skips leading white space and converts the longest prefix
    of the rest that is a StrDecimalLiteral: an optional sign, then
    [Infinity], or digits with an optional fraction and an optional
    exponent.  No such prefix gives NaN. *)

Definition isDigit (c : ascii) : bool :=
  let n := nat_of_ascii c in (48 <=? n)%nat && (n <=? 57)%nat.

Definition isWhiteSpace (c : ascii) : bool :=
  let n := nat_of_ascii c in
  ((9 <=? n)%nat && (n <=? 13)%nat) || (n =? 32)%nat.

Fixpoint trimStart (s : string) : string :=
  match s with
  | String c r => if isWhiteSpace c then trimStart r else s
  | EmptyString => EmptyString
  end.

(** The longest run of digits at the start of [s], and what follows it. *)
Fixpoint spanDigits (s : string) : string * string :=
  match s with
  | String c r =>
      if isDigit c
      then let '(ds, rest) := spanDigits r in (String c ds, rest)
      else (EmptyString, s)
  | EmptyString => (EmptyString, EmptyString)
  end.

Definition digitValue (c : ascii) : Z := Z.of_nat (nat_of_ascii c) - 48.

Fixpoint digitsValueFrom (acc : Z) (ds : string) : Z :=
  match ds with
  | EmptyString => acc
  | String c r => digitsValueFrom (10 * acc + digitValue c) r
  end.

(** The natural number written by a run of digits. *)
Definition digitsValue (ds : string) : Z := digitsValueFrom 0 ds.

Definition readSign (s : string) : bool * string :=
  match s with
  | String c r =>
      if (c =? "+")%char then (false, r)
      else if (c =? "-")%char then (true, r)
      else (false, s)
  | EmptyString => (false, s)
  end.

Definition isExponentIndicator (c : ascii) : bool :=
  (c =? "e")%char || (c =? "E")%char.

(** An ExponentPart at the start of [s]: its value and what follows it.
    An indicator that no digit follows is not part of the literal: the
    exponent is then 0 and nothing is consumed. *)
Definition scanExponent (s : string) : Z * string :=
  match s with
  | String c r =>
      if isExponentIndicator c then
        let '(neg, r') := readSign r in
        let '(ds, after) := spanDigits r' in
        if ds =? "" then (0%Z, s)
        else (if neg then (- digitsValue ds)%Z else digitsValue ds, after)
      else (0%Z, s)
  | EmptyString => (0%Z, s)
  end.

(** The longest unsigned decimal literal at the start of [s]: digits, an
    optional fraction, an optional exponent, with a digit before or after
    the dot. *)
Definition scanDecimal (s : string) : option (Q * string) :=
  let '(intDigits, afterInt) := spanDigits s in
  let '(fracDigits, afterFrac) :=
    match afterInt with
    | String c r =>
        if (c =? ".")%char then spanDigits r else (EmptyString, afterInt)
    | EmptyString => (EmptyString, afterInt)
    end in
  if (intDigits =? "") && (fracDigits =? "") then None
  else
    let mantissa := digitsValue (intDigits ++ fracDigits) in
    let '(exponent, after) := scanExponent afterFrac in
    Some ((inject_Z mantissa
           * 10 ^ (exponent - Z.of_nat (String.length fracDigits)))%Q,
          after).

Definition signed (neg : bool) (q : Q) : Q := if neg then (- q)%Q else q.

(** The longest StrDecimalLiteral at the start of [s]: its value and what
    follows it. *)
Definition scanStrDecimalLiteral (s : string) : option (number * string) :=
  let '(neg, rest) := readSign s in
  match JSString.stripPrefix "Infinity" rest with
  | Some after => Some (Infinity neg, after)
  | None =>
      match scanDecimal rest with
      | Some (q, after) => Some (Finite (Qred (signed neg q)), after)
      | None => None
      end
  end.

Definition parseFloat (input : string) : number :=
  match scanStrDecimalLiteral (trimStart input) with
  | Some (n, _) => n
  | None => NaN
  end.

End JSNumber.

Export JSNumber (number(..)).

(** ** src/helpers.ts *)

(** [hasPxUnit]: the value ends with "px". *)
Definition hasPxUnit (value : string) : bool := JSString.endsWith value "px".

(** [extractPxValue]: the numeric part of a pixel value, [None] for [null]. *)
Definition extractPxValue (pxValue : string) : option number :=
  if negb (hasPxUnit pxValue) then
    if pxValue =? "0" then Some (Finite 0) else None
  else
    let numericPart := JSString.substring0 (String.length pxValue - 2) pxValue in
    let numericValue := JSNumber.parseFloat numericPart in
    if JSNumber.isNaN numericValue then None else Some numericValue.

(** ** src/types.ts and the objects the rule works on *)

(** An object used as a map: own properties in [for ... in] order, with
    pairwise distinct keys. *)
Definition JSObject (V : Type) : Type := list (string * V).

(** [o[key]]; [None] stands for [undefined]. *)
Fixpoint get {V : Type} (o : JSObject V) (key : string) : option V :=
  match o with
  | [] => None
  | (k, v) :: rest => if k =? key then Some v else get rest key
  end.

(** Truthiness of [o[key]] for string-valued properties: defined and not
    the empty string.  Returns the value when it is truthy. *)
Definition getTruthy (o : JSObject string) (key : string) : option string :=
  match get o key with
  | Some v => if JSString.truthy v then Some v else None
  | None => None
  end.

Definition isSome {V : Type} (o : option V) : bool :=
  match o with Some _ => true | None => false end.

(** [list.includes(x)] on an array of strings *)
Definition includes (l : list string) (x : string) : bool :=
  existsb (fun y => y =? x) l.

Record TokenCategory : Type := {
  properties : list string;
  tokens : JSObject string
}.

Record RuleOptions : Type := {
  tokenMatchMargin : option number;
  tokensFilePath : string
}.

(** A category as found in the parsed tokens file, before the check of its
    shape: either field may be undefined. *)
Record RawCategory : Type := {
  raw_properties : option (list string);
  raw_tokens : option (JSObject string)
}.

(** What locating, reading and parsing the tokens file comes to. *)
Inductive TokensFile : Type :=
| FileMissing (resolvedPath : string)
| ReadOrParseFailure (message : string)
| ParsedNonObject
| ParsedObject (activeCategories : JSObject RawCategory).

(** Nodes of postcss-value-parser. Only function nodes have children. *)
Inductive NodeType : Type :=
| word | str | div | space | comment | func | unicodeRange.

Unset Elimination Schemes.
Inductive ValueNode : Type :=
| Node (type : NodeType) (value : string) (sourceIndex : nat)
       (nodes : list ValueNode).
Set Elimination Schemes.

Definition node_type (n : ValueNode) : NodeType :=
  match n with Node t _ _ _ => t end.
Definition node_value (n : ValueNode) : string :=
  match n with Node _ v _ _ => v end.
Definition node_sourceIndex (n : ValueNode) : nat :=
  match n with Node _ _ i _ => i end.
Definition node_nodes (n : ValueNode) : list ValueNode :=
  match n with Node _ _ _ ch => ch end.

Definition isWord (t : NodeType) : bool :=
  match t with word => true | _ => false end.
Definition isFunction (t : NodeType) : bool :=
  match t with func => true | _ => false end.

(** A postcss declaration, as far as the rule reads or writes it. *)
Record Declaration : Type := {
  prop : string;
  value : string;
  raws_between : option string;
  source_start : option (nat * nat)
}.

Definition set_value (decl : Declaration) (v : string) : Declaration :=
  {| prop := prop decl; value := v;
     raws_between := raws_between decl; source_start := source_start decl |}.

(** The argument of [stylelint.utils.report]. *)
Record Problem : Type := {
  message : string;
  index : nat;
  endIndex : nat;
  severity : option string
}.

(** What a pass leaves in the postcss result. *)
Inductive Warning : Type :=
| ParseError (text : string)
| Reported (problem : Problem).

(** ** Messages *)

Definition ruleName : string := "design-token-guard/enforce-tokens".

Definition DEFAULT_TOKEN_MATCH_MARGIN : number := Finite 2.

Definition dquote : string := String (ascii_of_nat 34) EmptyString.

(** [stylelint.utils.ruleMessages] appends the rule name to every message. *)
Definition ruleMessages (text : string) : string :=
  text ++ " (" ++ ruleName ++ ")".

Definition messages_exactMatch (tokenName originalValue propertyName : string) : string :=
  ruleMessages
    ("Design token " ++ tokenName ++ " expected for property "
       ++ propertyName ++ ": " ++ originalValue).

Definition messages_closeMatch
    (tokenName tokenPxValue originalValue otherSuggestions : string) : string :=
  ruleMessages
    (("Consider token: " ++ tokenName ++ " ('" ++ tokenPxValue
        ++ "') for current value " ++ dquote ++ originalValue ++ dquote ++ ".")
       ++ (if JSString.truthy otherSuggestions
           then " Other close matches: " ++ otherSuggestions ++ "."
           else "")).

(** ** Close matches *)

Record CloseMatch : Type := {
  tokenPxValue : string;
  tokenName : string;
  diff : number
}.

(** The loop over [category.tokens] that fills [closeMatches]. *)
Fixpoint collectCloseMatches (numericPxValue margin : number)
    (entries : JSObject string) : list CloseMatch :=
  match entries with
  | [] => []
  | (tokenPxEntry, name) :: rest =>
      let others := collectCloseMatches numericPxValue margin rest in
      if hasPxUnit tokenPxEntry || (tokenPxEntry =? "0") then
        match extractPxValue tokenPxEntry with
        | Some numTokenPx =>
            let d := JSNumber.abs (JSNumber.sub numericPxValue numTokenPx) in
            if JSNumber.gtb d JSNumber.zero && JSNumber.leb d margin
            then {| tokenPxValue := tokenPxEntry; tokenName := name; diff := d |}
                   :: others
            else others
        | None => others
        end
      else others
  end.

(** [Array.prototype.sort] with a comparison function: a stable sort in
    which [a] comes after [b] when [cmp a b > 0].  A NaN result counts as 0. *)
Section Sort.
Context {A : Type}.
Variable cmp : A -> A -> number.

Fixpoint insertSorted (x : A) (sorted : list A) : list A :=
  match sorted with
  | [] => [x]
  | y :: rest =>
      if JSNumber.gtb (cmp x y) JSNumber.zero
      then y :: insertSorted x rest
      else x :: sorted
  end.

Definition sort (l : list A) : list A := fold_right insertSorted [] l.
End Sort.

(** The comparison function [(a, b) => a.diff - b.diff]. *)
Definition byDiff (a b : CloseMatch) : number := JSNumber.sub (diff a) (diff b).

(** [m => `${m.tokenName} ('${m.tokenPxValue}')`] *)
Definition suggestionText (m : CloseMatch) : string :=
  tokenName m ++ " ('" ++ tokenPxValue m ++ "')".

(** [closeMatches.slice(1).map(...).join(', ')], or the empty string when
    there is a single close match. *)
Definition otherSuggestions (sorted : list CloseMatch) : string :=
  if (1 <? List.length sorted)%nat
  then JSString.join ", " (map suggestionText (tl sorted))
  else "".

(** ** ValueParser.walk

    [walk(nodes, cb)] calls [cb] on each node in order and then walks the
    children of a function node, unless [cb] returned [false] for it.

    The callbacks considered may assign to [node.value] and may serialize the
    whole tree.  A callback therefore receives, besides the node, the tree as
    it would be with a given text in place of the node's value, and returns
    the node's new value, the new state, and whether its result was other
    than [false].  Nodes already visited appear in the tree with their new
    values, the others with their old ones. *)
Section Walk.
Context {S : Type}.
Variable cb : ValueNode -> (string -> list ValueNode) -> S -> string * S * bool.

Fixpoint walkNode (node : ValueNode) (treeWith : ValueNode -> list ValueNode)
    (s : S) : ValueNode * S :=
  match node with
  | Node t v i children =>
      let '(v', s1, result) := cb node (fun x => treeWith (Node t x i children)) s in
      if result && isFunction t then
        let '(children', s2) :=
          (fix walkList (visited rest : list ValueNode) (s : S)
               : list ValueNode * S :=
             match rest with
             | [] => (visited, s)
             | n :: rest' =>
                 let '(n', s') :=
                   walkNode n
                     (fun x => treeWith (Node t v' i (visited ++ x :: rest')%list)) s in
                 walkList (visited ++ [n'])%list rest' s'
             end) [] children s1 in
        (Node t v' i children', s2)
      else (Node t v' i children, s1)
  end.

Fixpoint walkList (treeWith : list ValueNode -> list ValueNode)
    (visited rest : list ValueNode) (s : S) : list ValueNode * S :=
  match rest with
  | [] => (visited, s)
  | n :: rest' =>
      let '(n', s') :=
        walkNode n (fun x => treeWith (visited ++ x :: rest')%list) s in
      walkList treeWith (visited ++ [n'])%list rest' s'
  end.

(** [parsedValue.walk(cb)] *)
Definition walk (parsedValue : list ValueNode) (s : S) : list ValueNode * S :=
  walkList (fun tree => tree) [] parsedValue s.
End Walk.

(** ** The rule *)

Record WalkState : Type := {
  declValue : string;          (* decl.value *)
  result : list Warning        (* warnings of the postcss result *)
}.

Definition report (st : WalkState) (p : Problem) : WalkState :=
  {| declValue := declValue st; result := (result st ++ [Reported p])%list |}.

Section Rule.
(** The value tokenizer: [valueParser(text).nodes] and [tree.toString()]. *)
Variable valueParser : string -> list ValueNode.
Variable toString : list ValueNode -> string.
(** The tokens file found at a path. *)
Variable tokensFileAt : string -> TokensFile.

Section PerCategory.
Variable fix_ : bool.                    (* context.fix *)
Variable margin : number.                (* tokenMatchMargin *)
Variable propertyName : string.
Variable decl : Declaration.
Variable category : TokenCategory.

Definition between : string :=
  match raws_between decl with
  | Some b => if JSString.truthy b then b else ":"
  | None => ":"
  end.

(** The two problems the callback reports. *)
Definition exactMatchProblem (tokenToSuggest originalValue : string)
    (startIndex endIndex_ : nat) : Problem :=
  {| message := messages_exactMatch tokenToSuggest originalValue propertyName;
     index := startIndex;
     endIndex := endIndex_;
     severity := None |}.

Definition closeMatchProblem (bestMatch : CloseMatch) (otherSuggestionsStr : string)
    (originalValue : string) (startIndex endIndex_ : nat) : Problem :=
  {| message :=
       messages_closeMatch (tokenName bestMatch) (tokenPxValue bestMatch)
         originalValue otherSuggestionsStr;
     index := startIndex;
     endIndex := endIndex_;
     severity := Some "warning" |}.

(** The callback given to [parsedValue.walk]. *)
Definition callback (node : ValueNode) (treeWith : string -> list ValueNode)
    (st : WalkState) : string * WalkState * bool :=
  let originalValue := node_value node in
  let isPxValueNode := hasPxUnit originalValue in
  let isUnitlessZeroNode := originalValue =? "0" in
  if negb (isWord (node_type node))
     || (negb isPxValueNode && negb isUnitlessZeroNode)
  then (originalValue, st, true)
  else if isUnitlessZeroNode
          && negb (isSome (getTruthy (tokens category) "0"))
  then (originalValue, st, true)
  else
    let numericPxValue := extractPxValue originalValue in
    if negb isUnitlessZeroNode
       && negb (isSome numericPxValue)
    then (originalValue, st, true)
    else
      let valueOffset := String.length (prop decl) + String.length between in
      let valueNodeStartIndexInDecl := valueOffset + node_sourceIndex node in
      let valueNodeEndIndexInDecl :=
        valueNodeStartIndexInDecl + String.length originalValue in
      match getTruthy (tokens category) originalValue with
      | Some tokenToSuggest =>
          let fixing := fix_ && negb (node_value node =? tokenToSuggest) in
          let st1 :=
            if fixing
            then {| declValue := toString (treeWith tokenToSuggest);
                    result := result st |}
            else st in
          (if fixing then tokenToSuggest else originalValue,
           report st1
             (exactMatchProblem tokenToSuggest originalValue
                valueNodeStartIndexInDecl valueNodeEndIndexInDecl),
           false)
      | None =>
          match numericPxValue with
          | Some m =>
              if JSNumber.gtb margin JSNumber.zero then
                let closeMatches := collectCloseMatches m margin (tokens category) in
                if (0 <? List.length closeMatches)%nat then
                  let sorted := sort byDiff closeMatches in
                  match sorted with
                  | bestMatch :: _ =>
                      (originalValue,
                       report st
                         (closeMatchProblem bestMatch (otherSuggestions sorted)
                            originalValue
                            valueNodeStartIndexInDecl valueNodeEndIndexInDecl),
                       true)
                  | [] => (originalValue, st, true)
                  end
                else (originalValue, st, true)
              else (originalValue, st, true)
          | None => (originalValue, st, true)
          end
      end.

(** The body of the loop over the categories, for one category. *)
Definition checkCategory (st : WalkState) : WalkState :=
  if includes (properties category) propertyName then
    let parsedValue := valueParser (declValue st) in
    snd (walk callback parsedValue st)
  else st.
End PerCategory.

(** The callback given to [root.walkDecls], for one declaration. *)
Definition checkDecl (fix_ : bool) (margin : number)
    (activeCategories : JSObject TokenCategory)
    (decl : Declaration) (warnings : list Warning) : Declaration * list Warning :=
  if negb (JSString.truthy (prop decl))
     || negb (JSString.truthy (value decl))
     || negb (isSome (source_start decl))
  then (decl, warnings)
  else
    let propertyName := JSString.toLowerCase (prop decl) in
    let st :=
      fold_left
        (fun st entry => checkCategory fix_ margin propertyName decl (snd entry) st)
        activeCategories
        {| declValue := value decl; result := warnings |} in
    (set_value decl (declValue st), result st).

(** [root.walkDecls]: the declarations of the document, in order. *)
Fixpoint walkDecls (fix_ : bool) (margin : number)
    (activeCategories : JSObject TokenCategory)
    (root : list Declaration) (warnings : list Warning)
    : list Declaration * list Warning :=
  match root with
  | [] => ([], warnings)
  | decl :: rest =>
      let '(decl', warnings1) := checkDecl fix_ margin activeCategories decl warnings in
      let '(rest', warnings2) := walkDecls fix_ margin activeCategories rest warnings1 in
      (decl' :: rest', warnings2)
  end.

(** The check of the loaded structure: the first category with an
    undefined field makes it throw. *)
Fixpoint validateCategories (activeCategories : JSObject RawCategory)
    : string + JSObject TokenCategory :=
  match activeCategories with
  | [] => inr []
  | (key, raw) :: rest =>
      match raw_properties raw, raw_tokens raw with
      | Some p, Some t =>
          match validateCategories rest with
          | inl thrown => inl thrown
          | inr checked => inr ((key, {| properties := p; tokens := t |}) :: checked)
          end
      | _, _ =>
          inl ("Token category '" ++ key
                 ++ "' is missing 'properties' or 'tokens' field.")
      end
  end.

(** The [try] block: the categories, or the warning given instead. *)
Definition loadCategories (options : RuleOptions) : Warning + JSObject TokenCategory :=
  let failure (message : string) :=
    ParseError ("Error loading or parsing custom tokens file: " ++ message) in
  match tokensFileAt (tokensFilePath options) with
  | FileMissing resolvedPath =>
      inl (ParseError ("Custom tokens file not found at: " ++ resolvedPath))
  | ReadOrParseFailure message => inl (failure message)
  | ParsedNonObject => inl (failure "Tokens file must be a JSON object.")
  | ParsedObject activeCategories =>
      match validateCategories activeCategories with
      | inl message => inl (failure message)
      | inr checked => inr checked
      end
  end.

(** The validators of the secondary options. *)
Definition validTokenMatchMargin (val : number) : bool :=
  JSNumber.geb val JSNumber.zero.
Definition validTokensFilePath (val : string) : bool :=
  (0 <? String.length val)%nat.

(** The value [stylelint.utils.validateOptions] returns for the two calls of
    the rule: whether the secondary options are there and pass their
    validators.  When it returns false stylelint itself records an
    invalid-option warning on the result; that warning is written by
    stylelint and not by the rule, and it is not among the warnings of this
    development, which are those the rule writes. *)
Definition validateOptions (secondaryOptionsObject : option RuleOptions) : bool :=
  match secondaryOptionsObject with
  | None => false
  | Some options =>
      match tokenMatchMargin options with
      | Some val => validTokenMatchMargin val
      | None => true
      end
      && validTokensFilePath (tokensFilePath options)
  end.

(** [ruleImpl(primaryOption, secondaryOptionsObject, context)(root, result)]:
    the declarations after the pass and the warnings the rule has written.
    With options that do not validate the rule returns at once and writes
    nothing itself (what stylelint then records is outside, see
    [validateOptions]): the statements about the warnings of a pass are made
    for options that validate. *)
Definition ruleImpl (primaryOption : bool)
    (secondaryOptionsObject : option RuleOptions) (context_fix : bool)
    (root : list Declaration) (warnings : list Warning)
    : list Declaration * list Warning :=
  let validOptions := validateOptions secondaryOptionsObject in
  match secondaryOptionsObject with
  | Some options =>
      if negb validOptions || negb primaryOption then (root, warnings)
      else
        let margin :=
          match tokenMatchMargin options with
          | Some val => val
          | None => DEFAULT_TOKEN_MATCH_MARGIN
          end in
        match loadCategories options with
        | inl warning => (root, (warnings ++ [warning])%list)
        | inr activeCategories =>
            if (List.length activeCategories =? 0)%nat then (root, warnings)
            else walkDecls context_fix margin activeCategories root warnings
        end
  | None => (root, warnings)
  end.
End Rule.

(** ** A tokenizer for plain values

    On a value made of words separated by white space (no quote, bracket,
    comma, slash or colon) postcss-value-parser yields one word node per word
    and one space node per run of white space, each with the offset of its
    first character; [toString] concatenates the node values and wraps the
    children of a function node in brackets.  The concrete runs of the rule
    below use this tokenizer. *)
Module PlainValue.

Definition isSpaceChar (c : ascii) : bool := (nat_of_ascii c <=? 32)%nat.

Definition runNode (spaces : bool) (text : string) (at_ : nat) : ValueNode :=
  Node (if spaces then space else word) text at_ [].

Fixpoint scan (text : string) (at_ : nat) (run : option (bool * string * nat))
    : list ValueNode :=
  match text with
  | EmptyString =>
      match run with
      | None => []
      | Some (spaces, seen, start) => [runNode spaces seen start]
      end
  | String c rest =>
      let sp := isSpaceChar c in
      match run with
      | None => scan rest (S at_) (Some (sp, String c EmptyString, at_))
      | Some (spaces, seen, start) =>
          if Bool.eqb sp spaces
          then scan rest (S at_) (Some (spaces, seen ++ String c EmptyString, start))
          else runNode spaces seen start
                 :: scan rest (S at_) (Some (sp, String c EmptyString, at_))
      end
  end.

Definition valueParser (text : string) : list ValueNode := scan text 0 None.

Fixpoint stringifyNode (node : ValueNode) : string :=
  match node with
  | Node t v _ children =>
      if isFunction t
      then v ++ "(" ++ String.concat "" (map stringifyNode children) ++ ")"
      else v
  end.

Definition toString (tree : list ValueNode) : string :=
  String.concat "" (map stringifyNode tree).

End PlainValue.

(** * Notions used in the statements *)

(** ** Numeric literals *)

(** A character that may carry a decimal literal on. *)
Definition continuesLiteral (c : ascii) : bool :=
  JSNumber.isDigit c || (c =? ".")%char || JSNumber.isExponentIndicator c.

(** [rest] is empty or starts with a character that is no part of a number. *)
Definition startsNonNumeric (rest : string) : Prop :=
  match rest with
  | EmptyString => True
  | String c _ => continuesLiteral c = false
  end.

(** ** Close matches *)

Definition diffLe (a b : CloseMatch) : Prop :=
  JSNumber.leb (diff a) (diff b) = true.

(** The distance between the value of a node and the value of a token. *)
Definition distance (m t : number) : number := JSNumber.abs (JSNumber.sub m t).

(** The test a token key passes to become a close match of [m]. *)
Definition qualifies (m margin : number) (key : string) : bool :=
  match extractPxValue key with
  | Some t =>
      JSNumber.gtb (distance m t) JSNumber.zero && JSNumber.leb (distance m t) margin
  | None => false
  end.

Definition closeMatchOf (m : number) (entry : string * string) : CloseMatch :=
  {| tokenPxValue := fst entry;
     tokenName := snd entry;
     diff := match extractPxValue (fst entry) with
             | Some t => distance m t
             | None => NaN
             end |}.


(** The warnings that are no close-match diagnostics. *)
Definition notCloseMatch (w : Warning) : Prop :=
  match w with
  | Reported p => severity p = None
  | ParseError _ => True
  end.

(** ** One visit of the callback, one walk *)

(** The nodes a walk visits, in the order it visits them. *)
Fixpoint visitOrder (node : ValueNode) : list ValueNode :=
  match node with
  | Node t _ _ children =>
      node :: (if isFunction t then flat_map visitOrder children else [])
  end.

Section VisitNotions.
Variable toString : list ValueNode -> string.
Variable fix_ : bool.
Variable margin : number.
Variable propertyName : string.
Variable decl : Declaration.
Variable category : TokenCategory.

(** The three early returns of the callback, taken together. *)
Definition skipped (node : ValueNode) : bool :=
  let v := node_value node in
  negb (isWord (node_type node))
  || (negb (hasPxUnit v) && negb (v =? "0"))
  || ((v =? "0") && negb (isSome (getTruthy (tokens category) "0")))
  || (negb (v =? "0") && negb (isSome (extractPxValue v))).

(** The token of the exact match of a node, if it has one. *)
Definition exactToken (node : ValueNode) : option string :=
  if skipped node then None else getTruthy (tokens category) (node_value node).

(** The span reported for a node. *)
Definition startIndexOf (node : ValueNode) : nat :=
  String.length (prop decl) + String.length (between decl) + node_sourceIndex node.
Definition endIndexOf (node : ValueNode) : nat :=
  startIndexOf node + String.length (node_value node).

(** The text a visit leaves in the node, and whether it differs. *)
Definition rewrites (node : ValueNode) : bool :=
  match exactToken node with
  | Some tokenToSuggest => fix_ && negb (node_value node =? tokenToSuggest)
  | None => false
  end.
Definition fixedValue (node : ValueNode) : string :=
  match exactToken node with
  | Some tokenToSuggest => if rewrites node then tokenToSuggest else node_value node
  | None => node_value node
  end.

(** What the close-match branch reports for a node of magnitude [m]. *)
Definition closeReports (m : number) (node : ValueNode) : list Warning :=
  match sort byDiff (collectCloseMatches m margin (tokens category)) with
  | [] => []
  | bestMatch :: others =>
      [Reported
         (closeMatchProblem bestMatch (otherSuggestions (bestMatch :: others))
            (node_value node) (startIndexOf node) (endIndexOf node))]
  end.

(** The warnings one visit adds: the callback run on an empty result. *)
Definition visit (node : ValueNode) : list Warning :=
  result
    (snd (fst (callback (fun _ => EmptyString) false margin propertyName decl category
                 node (fun _ => []) {| declValue := EmptyString; result := [] |}))).

(** The tree a walk leaves behind. *)
Fixpoint fixNode (node : ValueNode) : ValueNode :=
  match node with
  | Node t v i children =>
      Node t (fixedValue node) i
        (if isFunction t then map fixNode children else children)
  end.

(** The walk rewrites some node of the tree. *)
Definition rewritesIn (tree : list ValueNode) : bool :=
  existsb rewrites (flat_map visitOrder tree).

(** The warnings of the visits of a walk. *)
Definition visitAll (tree : list ValueNode) : list Warning :=
  flat_map visit (flat_map visitOrder tree).

(** What walking [rest] comes to, after [visited], in a tree that
    [treeWith] completes. *)
Definition walked (treeWith : list ValueNode -> list ValueNode)
    (visited rest : list ValueNode) (st : WalkState) : list ValueNode * WalkState :=
  ((visited ++ map fixNode rest)%list,
   {| declValue :=
        if rewritesIn rest
        then toString (treeWith (visited ++ map fixNode rest)%list)
        else declValue st;
      result := (result st ++ visitAll rest)%list |}).

End VisitNotions.

(** ** One declaration *)

Section DeclNotions.
Variable valueParser : string -> list ValueNode.

(** The declarations the callback of [walkDecls] returns from at once. *)
Definition ignoredDecl (decl : Declaration) : bool :=
  negb (JSString.truthy (prop decl))
  || negb (JSString.truthy (value decl))
  || negb (isSome (source_start decl)).

(** What one category adds for a declaration whose value is not rewritten. *)
Definition categoryReports (margin : number) (decl : Declaration)
    (category : TokenCategory) : list Warning :=
  if includes (properties category) (JSString.toLowerCase (prop decl))
  then visitAll margin (JSString.toLowerCase (prop decl)) decl category
         (valueParser (value decl))
  else [].


End DeclNotions.

(** ** Fixing again *)


Section FixAgainNotions.
Variable valueParser : string -> list ValueNode.
Variable toString : list ValueNode -> string.
Variable propertyName : string.





End FixAgainNotions.

(** ** The catalog *)

Definition malformed (raw : RawCategory) : Prop :=
  raw_properties raw = None \/ raw_tokens raw = None.

Definition missingFieldText (key : string) : string :=
  "Error loading or parsing custom tokens file: Token category '" ++ key
    ++ "' is missing 'properties' or 'tokens' field.".

(** ** Sample declarations and catalogs *)

Definition spacingDecl : Declaration :=
  {| prop := "margin"; value := "16px"; raws_between := Some ": ";
     source_start := Some (1, 1) |}.

Definition defaultOptions : RuleOptions :=
  {| tokenMatchMargin := None; tokensFilePath := "tokens.json" |}.

(** Two categories that list [margin] and hold the key 16px. *)
Definition twoCategories : JSObject RawCategory :=
  [("spacing",
    {| raw_properties := Some ["margin"; "padding"];
       raw_tokens := Some [("16px", "var(--space-4)")] |});
   ("sizing",
    {| raw_properties := Some ["margin"; "width"];
       raw_tokens := Some [("16px", "var(--size-4)")] |})].




(** ** Notions of the further properties *)

(** What the pass makes of one declaration: the declaration after it and
    the warnings it adds. *)
Definition declOutcome (valueParser : string -> list ValueNode)
    (toString : list ValueNode -> string) (fix_ : bool) (margin : number)
    (activeCategories : JSObject TokenCategory) (decl : Declaration)
    : Declaration * list Warning :=
  checkDecl valueParser toString fix_ margin activeCategories decl [].

Definition isReported (w : Warning) : Prop :=
  match w with
  | Reported _ => True
  | ParseError _ => False
  end.

(** The margin a pass works with. *)
Definition marginOf (options : RuleOptions) : number :=
  match tokenMatchMargin options with
  | Some val => val
  | None => DEFAULT_TOKEN_MATCH_MARGIN
  end.

(** Two declarations that differ in their value at most. *)
Definition sameButValue (before after : Declaration) : Prop :=
  prop after = prop before
  /\ raws_between after = raws_between before
  /\ source_start after = source_start before.

(** A key that a node can match: with the px unit, or the unitless zero. *)
Definition reachableKey (key : string) : bool := hasPxUnit key || (key =? "0").

(** A category without the tokens whose key no node can match. *)
Definition withoutDeadKeys (category : TokenCategory) : TokenCategory :=
  {| properties := properties category;
     tokens := filter (fun entry => reachableKey (fst entry)) (tokens category) |}.

(** A declaration with its property name in lower case. *)
Definition lowerCased (decl : Declaration) : Declaration :=
  {| prop := JSString.toLowerCase (prop decl); value := value decl;
     raws_between := raws_between decl; source_start := source_start decl |}.

(** The text of a declaration as the rule takes it to be. *)
Definition declText (decl : Declaration) : string :=
  prop decl ++ between decl ++ value decl.

(** A category of the tokens file with both fields. *)
Definition rawOf (category : TokenCategory) : RawCategory :=
  {| raw_properties := Some (properties category);
     raw_tokens := Some (tokens category) |}.

Definition rawEntry (entry : string * TokenCategory) : string * RawCategory :=
  (fst entry, rawOf (snd entry)).

(** * Properties *)

(** ** Strings *)

Section StringFacts.

Lemma length_app (s t : string) :
  String.length (s ++ t) = String.length s + String.length t.
Proof. induction s as [|c s IH]; simpl; [reflexivity | now rewrite IH]. Qed.

Lemma app_assoc_string (s t u : string) : (s ++ t) ++ u = s ++ t ++ u.
Proof. induction s as [|c s IH]; simpl; [reflexivity | now rewrite IH]. Qed.

Lemma app_empty_r (s : string) : s ++ "" = s.
Proof. induction s as [|c s IH]; simpl; [reflexivity | now rewrite IH]. Qed.

Lemma substring_all (s : string) : substring 0 (String.length s) s = s.
Proof. induction s as [|c s IH]; simpl; [reflexivity | now rewrite IH]. Qed.

Lemma substring_head (s t : string) : substring 0 (String.length s) (s ++ t) = s.
Proof.
  induction s as [|c s IH]; simpl.
  - destruct t; reflexivity.
  - now rewrite IH.
Qed.

Lemma substring_tail (s t : string) :
  substring (String.length s) (String.length t) (s ++ t) = t.
Proof. induction s as [|c s IH]; simpl; [apply substring_all | exact IH]. Qed.

(** A string splits at any position into what [substring] finds there. *)
Lemma substring_split (n : nat) (s : string) :
  n <= String.length s ->
  s = substring 0 n s ++ substring n (String.length s - n) s.
Proof.
  revert n; induction s as [|c s IH]; intros [|n] H; simpl in *;
    try reflexivity; try lia.
  - now rewrite substring_all.
  - f_equal. apply IH. lia.
Qed.

Lemma endsWith_app (s suffix : string) : JSString.endsWith (s ++ suffix) suffix = true.
Proof.
  unfold JSString.endsWith. rewrite length_app.
  replace (String.length s + String.length suffix - String.length suffix)
    with (String.length s) by lia.
  rewrite substring_tail, String.eqb_refl.
  apply andb_true_iff; split; [apply Nat.leb_le; lia | reflexivity].
Qed.

Lemma endsWith_split (s suffix : string) :
  JSString.endsWith s suffix = true ->
  s = substring 0 (String.length s - String.length suffix) s ++ suffix.
Proof.
  unfold JSString.endsWith. intros H.
  apply andb_true_iff in H as [Hlen Heq].
  apply Nat.leb_le in Hlen. apply String.eqb_eq in Heq.
  rewrite (substring_split (String.length s - String.length suffix) s) at 1 by lia.
  f_equal.
  replace (String.length s - (String.length s - String.length suffix))
    with (String.length suffix) by lia.
  exact Heq.
Qed.

End StringFacts.

(** ** The helpers *)

Section HelperFacts.

Lemma hasPxUnit_app (numericPart : string) : hasPxUnit (numericPart ++ "px") = true.
Proof. apply endsWith_app. Qed.

(** Every value with the px unit is a numeric part followed by "px". *)
Lemma hasPxUnit_split (v : string) :
  hasPxUnit v = true -> v = JSString.substring0 (String.length v - 2) v ++ "px".
Proof. intros H. apply (endsWith_split v "px" H). Qed.

Lemma numericPart_app (numericPart : string) :
  JSString.substring0 (String.length (numericPart ++ "px") - 2) (numericPart ++ "px")
  = numericPart.
Proof.
  unfold JSString.substring0. rewrite length_app. simpl.
  replace (String.length numericPart + 2 - 2) with (String.length numericPart) by lia.
  apply substring_head.
Qed.

Lemma extractPxValue_px (numericPart : string) :
  extractPxValue (numericPart ++ "px")
  = if JSNumber.isNaN (JSNumber.parseFloat numericPart) then None
    else Some (JSNumber.parseFloat numericPart).
Proof.
  unfold extractPxValue. rewrite hasPxUnit_app. simpl negb. cbv iota.
  now rewrite numericPart_app.
Qed.

Lemma extractPxValue_other (raw : string) :
  hasPxUnit raw = false -> raw <> "0" -> extractPxValue raw = None.
Proof.
  intros Hpx Hz. unfold extractPxValue. rewrite Hpx. simpl.
  destruct (String.eqb_spec raw "0"); [contradiction | reflexivity].
Qed.

Lemma extractPxValue_not_NaN (raw : string) (n : number) :
  extractPxValue raw = Some n -> JSNumber.isNaN n = false.
Proof.
  unfold extractPxValue.
  destruct (hasPxUnit raw); simpl.
  - destruct (JSNumber.isNaN (JSNumber.parseFloat _)) eqn:E; [discriminate|].
    intros [= <-]. exact E.
  - destruct (raw =? "0"); [intros [= <-]; reflexivity | discriminate].
Qed.

(** A value read as a number has the px unit or is the unitless zero. *)
Lemma extractPxValue_Some_shape (raw : string) (n : number) :
  extractPxValue raw = Some n -> hasPxUnit raw || (raw =? "0") = true.
Proof.
  unfold extractPxValue. destruct (hasPxUnit raw); simpl; [reflexivity|].
  destruct (raw =? "0"); [reflexivity | discriminate].
Qed.

End HelperFacts.

(** ** parseFloat reads the longest literal and ignores what follows *)

Module ParseFloatFacts.
Import JSNumber.

Lemma startsNonNumeric_app (rest more : string) :
  startsNonNumeric rest -> startsNonNumeric more -> startsNonNumeric (rest ++ more).
Proof. destruct rest; simpl; auto. Qed.

Lemma continuesLiteral_false (c : ascii) :
  continuesLiteral c = false ->
  isDigit c = false /\ (c =? ".")%char = false /\ isExponentIndicator c = false.
Proof.
  unfold continuesLiteral. intros H.
  apply orb_false_iff in H as [H He]. apply orb_false_iff in H as [Hd Hp].
  auto.
Qed.

Lemma spanDigits_stop (rest : string) :
  startsNonNumeric rest -> spanDigits rest = (EmptyString, rest).
Proof.
  destruct rest as [|c r]; simpl; [reflexivity|].
  intros H. apply continuesLiteral_false in H as (-> & _). reflexivity.
Qed.

Lemma spanDigits_app (s rest ds r : string) :
  spanDigits s = (ds, r) ->
  r <> EmptyString \/ startsNonNumeric rest ->
  spanDigits (s ++ rest) = (ds, r ++ rest).
Proof.
  revert ds r. induction s as [|c s IH]; intros ds r; simpl.
  - intros [= <- <-] [H|H]; [contradiction | now apply spanDigits_stop].
  - destruct (isDigit c).
    + destruct (spanDigits s) as [ds' r'] eqn:E. intros [= <- <-] H.
      now rewrite (IH ds' r' eq_refl H).
    + intros [= <- <-] _. reflexivity.
Qed.

Lemma readSign_app (s rest r : string) (neg : bool) :
  s <> EmptyString -> readSign s = (neg, r) -> readSign (s ++ rest) = (neg, r ++ rest).
Proof.
  destruct s as [|c s]; [contradiction|]. intros _. simpl.
  destruct (c =? "+")%char; [now intros [= <- <-]|].
  destruct (c =? "-")%char; now intros [= <- <-].
Qed.

Lemma scanExponent_stop (rest : string) :
  startsNonNumeric rest -> scanExponent rest = (0%Z, rest).
Proof.
  destruct rest as [|c r]; simpl; [reflexivity|].
  intros H. apply continuesLiteral_false in H as (_ & _ & ->). reflexivity.
Qed.

Lemma scanExponent_app (s rest : string) (e : Z) :
  scanExponent s = (e, EmptyString) -> startsNonNumeric rest ->
  scanExponent (s ++ rest) = (e, rest).
Proof.
  destruct s as [|c s]; simpl.
  - intros [= <-] H. now apply scanExponent_stop.
  - destruct (isExponentIndicator c); [|discriminate].
    destruct (readSign s) as [neg r'] eqn:Hsign.
    destruct (spanDigits r') as [ds after] eqn:Hspan.
    destruct (ds =? "") eqn:Hds; [discriminate|].
    intros [= <- ->] Hrest.
    assert (Hs : s <> EmptyString).
    { intros ->. cbn in Hsign. injection Hsign as <- <-.
      cbn in Hspan. injection Hspan as <-. discriminate. }
    rewrite (readSign_app s rest r' neg Hs Hsign).
    rewrite (spanDigits_app r' rest ds EmptyString Hspan (or_intror Hrest)).
    now rewrite Hds.
Qed.

Lemma scanDecimal_app (s rest : string) (q : Q) :
  scanDecimal s = Some (q, EmptyString) -> startsNonNumeric rest ->
  scanDecimal (s ++ rest) = Some (q, rest).
Proof.
  unfold scanDecimal. intros H Hrest.
  destruct (spanDigits s) as [intDigits afterInt] eqn:Hint.
  destruct afterInt as [|c r].
  - rewrite (spanDigits_app s rest intDigits EmptyString Hint (or_intror Hrest)).
    cbn [append].
    destruct (intDigits =? "") eqn:Hnone; [discriminate|].
    cbn in H. injection H as <-.
    destruct rest as [|c r]; [reflexivity|].
    cbn in Hrest. apply continuesLiteral_false in Hrest as (_ & Hdot & Hexp).
    cbv beta iota. rewrite Hdot. unfold scanExponent. rewrite Hexp.
    reflexivity.
  - assert (Hne : String c r <> EmptyString) by discriminate.
    rewrite (spanDigits_app s rest intDigits (String c r) Hint (or_introl Hne)).
    cbn [append].
    destruct (c =? ".")%char.
    + destruct (spanDigits r) as [fracDigits afterFrac] eqn:Hfrac.
      destruct ((intDigits =? "") && (fracDigits =? "")) eqn:Hnone; [discriminate|].
      destruct (scanExponent afterFrac) as [e after] eqn:Hexp.
      injection H as <- ->.
      assert (Hspan : spanDigits (r ++ rest) = (fracDigits, afterFrac ++ rest)).
      { apply spanDigits_app; [exact Hfrac|].
        destruct afterFrac; [now right | left; discriminate]. }
      rewrite Hspan, Hnone.
      now rewrite (scanExponent_app afterFrac rest e Hexp Hrest).
    + destruct (intDigits =? ""); [discriminate|]. cbn [andb] in *.
      destruct (scanExponent (String c r)) as [e after] eqn:Hexp.
      injection H as <- ->.
      change (String c (r ++ rest)) with (String c r ++ rest).
      now rewrite (scanExponent_app (String c r) rest e Hexp Hrest).
Qed.

Lemma stripPrefix_app (p s rest after : string) :
  JSString.stripPrefix p s = Some after ->
  JSString.stripPrefix p (s ++ rest) = Some (after ++ rest).
Proof.
  revert s. induction p as [|a p IH]; intros s; simpl.
  - now intros [= <-].
  - destruct s as [|b s]; [discriminate|]. simpl.
    destruct (a =? b)%char; [apply IH | discriminate].
Qed.

(** A string on which [scanDecimal] succeeds starts with a digit or a dot. *)
Lemma scanDecimal_first (s : string) (q : Q) (after : string) :
  scanDecimal s = Some (q, after) ->
  exists c r, s = String c r /\ (isDigit c || (c =? ".")%char) = true.
Proof.
  unfold scanDecimal. destruct s as [|c r]; [discriminate|].
  intros H. exists c, r. split; [reflexivity|].
  cbn in H. destruct (isDigit c); [reflexivity|].
  destruct (c =? ".")%char; [reflexivity|]. discriminate.
Qed.

Lemma digit_or_dot_not_Infinity (c : ascii) (r : string) :
  (isDigit c || (c =? ".")%char) = true ->
  JSString.stripPrefix "Infinity" (String c r) = None.
Proof.
  intros H.
  change (JSString.stripPrefix "Infinity" (String c r))
    with (if ("I" =? c)%char then JSString.stripPrefix "nfinity" r else None).
  destruct (Ascii.eqb_spec "I" c) as [<-|]; [discriminate | reflexivity].
Qed.

Lemma digit_or_dot_not_sign (c : ascii) :
  (isDigit c || (c =? ".")%char) = true ->
  (c =? "+")%char = false /\ (c =? "-")%char = false.
Proof.
  intros H. split.
  - destruct (Ascii.eqb_spec c "+") as [->|]; [discriminate | reflexivity].
  - destruct (Ascii.eqb_spec c "-") as [->|]; [discriminate | reflexivity].
Qed.

Lemma scanStrDecimalLiteral_app (literal rest : string) (n : number) :
  scanStrDecimalLiteral literal = Some (n, EmptyString) ->
  startsNonNumeric rest ->
  scanStrDecimalLiteral (literal ++ rest) = Some (n, rest).
Proof.
  unfold scanStrDecimalLiteral. intros H Hrest.
  destruct (readSign literal) as [neg r] eqn:Hsign.
  assert (Hne : literal <> EmptyString).
  { intros ->. cbn in Hsign. injection Hsign as <- <-. cbn in H. discriminate. }
  rewrite (readSign_app literal rest r neg Hne Hsign).
  destruct (JSString.stripPrefix "Infinity" r) as [after|] eqn:Hinf.
  - injection H as <- ->.
    now rewrite (stripPrefix_app _ _ rest _ Hinf).
  - destruct (scanDecimal r) as [[q after]|] eqn:Hdec; [|discriminate].
    injection H as <- ->.
    destruct (scanDecimal_first r q EmptyString Hdec) as (c & r' & -> & Hc).
    change (String c r' ++ rest) with (String c (r' ++ rest)).
    rewrite (digit_or_dot_not_Infinity c _ Hc).
    change (String c (r' ++ rest)) with (String c r' ++ rest).
    now rewrite (scanDecimal_app _ rest q Hdec Hrest).
Qed.

(** A literal does not start with white space. *)
Lemma scanStrDecimalLiteral_first (s : string) (n : number) (after : string) :
  scanStrDecimalLiteral s = Some (n, after) ->
  exists c r, s = String c r /\ isWhiteSpace c = false.
Proof.
  destruct s as [|c r]; [discriminate|]. intros H. exists c, r.
  split; [reflexivity|].
  destruct (isWhiteSpace c) eqn:Hw; [exfalso | reflexivity].
  unfold scanStrDecimalLiteral, readSign in H.
  destruct (Ascii.eqb_spec c "+") as [->|_]; [discriminate|].
  destruct (Ascii.eqb_spec c "-") as [->|_]; [discriminate|].
  destruct (JSString.stripPrefix "Infinity" (String c r)) eqn:Hinf.
  { change (JSString.stripPrefix "Infinity" (String c r))
      with (if ("I" =? c)%char then JSString.stripPrefix "nfinity" r else None)
      in Hinf.
    destruct (Ascii.eqb_spec "I" c) as [<-|_]; discriminate. }
  destruct (scanDecimal (String c r)) as [[q a]|] eqn:Hdec; [|discriminate].
  destruct (scanDecimal_first _ _ _ Hdec) as (c' & r' & [= <- <-] & Hc).
  apply orb_true_iff in Hc as [Hc|Hc].
  - unfold isDigit in Hc. unfold isWhiteSpace in Hw.
    apply andb_true_iff in Hc as [Hc1 Hc2]. apply Nat.leb_le in Hc1, Hc2.
    apply orb_true_iff in Hw as [Hw|Hw].
    + apply andb_true_iff in Hw as [_ Hw]. apply Nat.leb_le in Hw. lia.
    + apply Nat.eqb_eq in Hw. lia.
  - apply Ascii.eqb_eq in Hc. subst c. discriminate.
Qed.

Lemma scanned_not_NaN (s : string) (n : number) (after : string) :
  scanStrDecimalLiteral s = Some (n, after) -> isNaN n = false.
Proof.
  unfold scanStrDecimalLiteral.
  destruct (readSign s) as [neg r].
  destruct (JSString.stripPrefix "Infinity" r); [now intros [= <- _]|].
  destruct (scanDecimal r) as [[q a]|]; [now intros [= <- _] | discriminate].
Qed.

(** [parseFloat] of a literal followed by anything that cannot carry it on
    is the value of the literal. *)
Lemma parseFloat_app (literal rest : string) (n : number) :
  scanStrDecimalLiteral literal = Some (n, EmptyString) ->
  startsNonNumeric rest ->
  parseFloat (literal ++ rest) = n.
Proof.
  intros H Hrest. unfold parseFloat.
  destruct (scanStrDecimalLiteral_first _ _ _ H) as (c & r & -> & Hc).
  cbn [append trimStart]. rewrite Hc.
  change (String c (r ++ rest)) with (String c r ++ rest).
  now rewrite (scanStrDecimalLiteral_app _ rest n H Hrest).
Qed.

End ParseFloatFacts.

(** ** Order on numbers *)

Module NumberFacts.
Import JSNumber.

Lemma Qltb_lt (x y : Q) : Qltb x y = true <-> (x < y)%Q.
Proof.
  unfold Qltb. rewrite negb_true_iff. split; intros H.
  - apply Qnot_le_lt. intros Hle. apply Qle_bool_iff in Hle. congruence.
  - destruct (Qle_bool y x) eqn:E; [|reflexivity].
    apply Qle_bool_iff in E. exfalso. apply (Qlt_not_le _ _ H E).
Qed.

Lemma Qltb_nlt (x y : Q) : Qltb x y = false <-> (y <= x)%Q.
Proof.
  unfold Qltb. rewrite negb_false_iff. apply Qle_bool_iff.
Qed.

(** The sign of [a - b] tells which of [a] and [b] is larger. *)
Lemma sub_positive (a b : number) : gtb (sub a b) zero = ltb b a.
Proof.
  destruct a as [|[]|x], b as [|[]|y]; try reflexivity.
  unfold gtb, sub, zero, ltb.
  {
    destruct (Qltb y x) eqn:E.
    + apply Qltb_lt. apply Qltb_lt in E. rewrite Qred_correct. lra.
    + apply Qltb_nlt. apply Qltb_nlt in E. rewrite Qred_correct. lra. }
Qed.

Lemma ltb_leb (a b : number) : ltb a b = true -> leb a b = true.
Proof.
  destruct a as [|[]|x], b as [|[]|y]; cbn; try congruence.
  intros H. apply Qltb_lt in H. apply Qle_bool_iff. lra.
Qed.

Lemma not_ltb_leb (a b : number) :
  isNaN a = false -> isNaN b = false -> ltb b a = false -> leb a b = true.
Proof.
  destruct a as [|[]|x], b as [|[]|y]; cbn; try congruence.
  intros _ _ H. apply Qltb_nlt in H. now apply Qle_bool_iff.
Qed.

Lemma leb_trans (a b c : number) :
  leb a b = true -> leb b c = true -> leb a c = true.
Proof.
  destruct a as [|[]|x], b as [|[]|y], c as [|[]|z]; cbn; try congruence.
  rewrite !Qle_bool_iff. intros; lra.
Qed.

Lemma ltb_not_eqb (a b d : number) :
  ltb b a = true -> eqb a d = true -> eqb b d = false.
Proof.
  unfold eqb. intros Hlt Had.
  apply andb_true_iff in Had as [H1 H2].
  apply andb_false_iff.
  destruct (leb d b) eqn:E; [left | now right].
  destruct a as [|[]|x], b as [|[]|y], d as [|[]|z]; cbn in *; try congruence.
  apply Qltb_lt in Hlt. apply Qle_bool_iff in H1, H2, E.
  destruct (Qle_bool y z) eqn:F; [|reflexivity].
  apply Qle_bool_iff in F. lra.
Qed.

(** A positive number is not NaN. *)
Lemma positive_not_NaN (d : number) : gtb d zero = true -> isNaN d = false.
Proof. destruct d; cbn; congruence. Qed.

Lemma zero_not_positive : gtb zero zero = false.
Proof. reflexivity. Qed.

(** A number is at no distance from itself. *)
Lemma self_distance (m : number) : gtb (abs (sub m m)) zero = false.
Proof.
  destruct m as [|[]|x]; try reflexivity.
  unfold gtb, abs, sub, zero, ltb. apply Qltb_nlt.
  rewrite Qred_correct.
  assert (H : (Qred (x - x) == 0)%Q) by (rewrite Qred_correct; lra).
  rewrite H. cbn. lra.
Qed.

End NumberFacts.

(** ** Array.prototype.sort by [diff] *)

Section SortFacts.
Import JSNumber NumberFacts.

Lemma insertSorted_perm (x : CloseMatch) (l : list CloseMatch) :
  Permutation (x :: l) (insertSorted byDiff x l).
Proof.
  induction l as [|y l IH]; cbn [insertSorted]; [reflexivity|].
  destruct (gtb (byDiff x y) zero); [|reflexivity].
  rewrite perm_swap. now apply perm_skip.
Qed.

Lemma sort_perm (l : list CloseMatch) : Permutation l (sort byDiff l).
Proof.
  induction l as [|x l IH]; [reflexivity|].
  cbn [sort fold_right]. fold (sort byDiff l).
  rewrite <- insertSorted_perm. now apply perm_skip.
Qed.

Lemma insertSorted_sorted (x : CloseMatch) (l : list CloseMatch) :
  isNaN (diff x) = false ->
  Forall (fun c => isNaN (diff c) = false) l ->
  StronglySorted diffLe l ->
  StronglySorted diffLe (insertSorted byDiff x l).
Proof.
  intros Hx Hl Hs. induction Hs as [|y l Hs IH Hy]; cbn [insertSorted].
  - constructor; constructor.
  - inversion Hl as [|? ? Hyn Hln]; subst.
    unfold byDiff at 1. rewrite sub_positive.
    destruct (ltb (diff y) (diff x)) eqn:E.
    + constructor; [now apply IH|].
      apply (Permutation_Forall (insertSorted_perm x l)).
      constructor; [now apply ltb_leb | exact Hy].
    + assert (Hxy : diffLe x y) by now apply not_ltb_leb.
      constructor; [now constructor|].
      constructor; [exact Hxy|].
      eapply Forall_impl; [|exact Hy].
      intros c Hc. exact (leb_trans _ _ _ Hxy Hc).
Qed.

Lemma sort_sorted (l : list CloseMatch) :
  Forall (fun c => isNaN (diff c) = false) l ->
  StronglySorted diffLe (sort byDiff l).
Proof.
  induction 1 as [|x l Hx Hl IH]; [constructor|].
  cbn [sort fold_right]. fold (sort byDiff l).
  apply insertSorted_sorted; [exact Hx | | exact IH].
  now apply (Permutation_Forall (sort_perm l)).
Qed.

(** Inserting [x] moves it past smaller elements only, so among the
    elements of one [diff] the order does not change. *)
Lemma insertSorted_filter (d : number) (x : CloseMatch) (l : list CloseMatch) :
  filter (fun c => eqb (diff c) d) (insertSorted byDiff x l)
  = filter (fun c => eqb (diff c) d) (x :: l).
Proof.
  induction l as [|y l IH]; [reflexivity|].
  cbn [insertSorted]. unfold byDiff at 1. rewrite sub_positive.
  destruct (ltb (diff y) (diff x)) eqn:E; [|reflexivity].
  cbn [filter] in *. rewrite IH.
  destruct (eqb (diff x) d) eqn:Ex; [|reflexivity].
  now rewrite (ltb_not_eqb _ _ _ E Ex).
Qed.

Lemma sort_stable (d : number) (l : list CloseMatch) :
  filter (fun c => eqb (diff c) d) (sort byDiff l)
  = filter (fun c => eqb (diff c) d) l.
Proof.
  induction l as [|x l IH]; [reflexivity|].
  cbn [sort fold_right]. fold (sort byDiff l).
  rewrite insertSorted_filter. cbn [filter]. now rewrite IH.
Qed.

Lemma sort_length (l : list CloseMatch) :
  List.length (sort byDiff l) = List.length l.
Proof. symmetry. apply Permutation_length, sort_perm. Qed.

End SortFacts.

(** ** The close-match search *)

Section CloseMatchFacts.
Import JSNumber NumberFacts.

(** The search keeps, in the order of the keys, the entries whose key
    qualifies. *)
Lemma collectCloseMatches_filter (m margin : number) (entries : JSObject string) :
  collectCloseMatches m margin entries
  = map (closeMatchOf m) (filter (fun e => qualifies m margin (fst e)) entries).
Proof.
  induction entries as [|[key name] rest IH]; [reflexivity|].
  cbn [collectCloseMatches filter fst]. unfold qualifies at 1.
  destruct (extractPxValue key) as [t|] eqn:E.
  - rewrite (extractPxValue_Some_shape key t E).
    fold (distance m t).
    destruct (gtb (distance m t) zero && leb (distance m t) margin).
    + cbn [map]. unfold closeMatchOf at 1. cbn [fst snd]. rewrite E.
      now rewrite IH.
    + exact IH.
  - destruct (hasPxUnit key || (key =? "0")); exact IH.
Qed.

Lemma collectCloseMatches_In (m margin : number) (entries : JSObject string)
    (c : CloseMatch) :
  In c (collectCloseMatches m margin entries)
  <-> exists key name t,
        In (key, name) entries
        /\ extractPxValue key = Some t
        /\ c = {| tokenPxValue := key; tokenName := name; diff := distance m t |}
        /\ gtb (distance m t) zero = true
        /\ leb (distance m t) margin = true.
Proof.
  rewrite collectCloseMatches_filter, in_map_iff. split.
  - intros ([key name] & <- & Hin). apply filter_In in Hin as [Hin Hq].
    cbn [fst] in Hq. unfold qualifies in Hq.
    destruct (extractPxValue key) as [t|] eqn:E; [|discriminate].
    apply andb_true_iff in Hq as [Hpos Hle].
    exists key, name, t. unfold closeMatchOf. cbn [fst snd]. rewrite E. auto.
  - intros (key & name & t & Hin & E & -> & Hpos & Hle).
    exists (key, name). split.
    + unfold closeMatchOf. cbn [fst snd]. now rewrite E.
    + apply filter_In. split; [exact Hin|].
      cbn [fst]. unfold qualifies. rewrite E, Hpos, Hle. reflexivity.
Qed.


Lemma collectCloseMatches_bounds (m margin : number) (entries : JSObject string) :
  Forall (fun c => gtb (diff c) zero = true /\ leb (diff c) margin = true)
    (collectCloseMatches m margin entries).
Proof.
  apply Forall_forall. intros c Hc.
  apply collectCloseMatches_In in Hc as (key & name & t & _ & _ & -> & Hpos & Hle).
  now split.
Qed.

Lemma collectCloseMatches_not_NaN (m margin : number) (entries : JSObject string) :
  Forall (fun c => isNaN (diff c) = false) (collectCloseMatches m margin entries).
Proof.
  eapply Forall_impl; [|apply collectCloseMatches_bounds].
  intros c [Hpos _]. now apply positive_not_NaN.
Qed.

(** Nothing is within a margin that is not positive. *)
Lemma leb_margin_positive (d margin : number) :
  gtb d zero = true -> leb d margin = true -> gtb margin zero = true.
Proof.
  destruct d as [|[]|x], margin as [|[]|y]; cbn; try congruence.
  unfold gtb, ltb, zero. rewrite !Qltb_lt, Qle_bool_iff. intros; lra.
Qed.

End CloseMatchFacts.

(** ** One visit of the callback *)

Section CallbackFacts.
Import JSNumber NumberFacts.

Variable toString : list ValueNode -> string.
Variable fix_ : bool.
Variable margin : number.
Variable propertyName : string.
Variable decl : Declaration.
Variable category : TokenCategory.

Lemma sort_nil_inv (l : list CloseMatch) : sort byDiff l = [] -> l = [].
Proof.
  intros H. apply Permutation_nil. rewrite <- H. symmetry. apply sort_perm.
Qed.

(** The callback, with its early returns gathered and its reports named. *)
Lemma callback_unfold (node : ValueNode) (treeWith : string -> list ValueNode)
    (st : WalkState) :
  callback toString fix_ margin propertyName decl category node treeWith st
  = if skipped category node then (node_value node, st, true)
    else
      match getTruthy (tokens category) (node_value node) with
      | Some tokenToSuggest =>
          let fixing := fix_ && negb (node_value node =? tokenToSuggest) in
          (if fixing then tokenToSuggest else node_value node,
           report
             (if fixing
              then {| declValue := toString (treeWith tokenToSuggest);
                      result := result st |}
              else st)
             (exactMatchProblem propertyName tokenToSuggest (node_value node)
                (startIndexOf decl node) (endIndexOf decl node)),
           false)
      | None =>
          (node_value node,
           match extractPxValue (node_value node) with
           | Some m =>
               if gtb margin zero
               then {| declValue := declValue st;
                       result := (result st ++ closeReports margin decl category m node)%list |}
               else st
           | None => st
           end,
           true)
      end.
Proof.
  unfold callback, skipped.
  destruct (negb (isWord (node_type node))
            || negb (hasPxUnit (node_value node)) && negb (node_value node =? "0"));
    [reflexivity|].
  destruct ((node_value node =? "0")
            && negb (isSome (getTruthy (tokens category) "0")));
    [reflexivity|].
  destruct (negb (node_value node =? "0")
            && negb (isSome (extractPxValue (node_value node))));
    [reflexivity|].
  cbn [orb].
  fold (startIndexOf decl node). fold (endIndexOf decl node).
  destruct (getTruthy (tokens category) (node_value node)); [reflexivity|].
  destruct (extractPxValue (node_value node)) as [m|]; [|reflexivity].
  destruct (gtb margin zero); [|reflexivity].
  unfold closeReports.
  destruct (collectCloseMatches m margin (tokens category)) as [|c l] eqn:E.
  - cbn. rewrite app_nil_r. now destruct st.
  - cbn [List.length Nat.ltb Nat.leb].
    destruct (sort byDiff (c :: l)) as [|best others] eqn:Es.
    + apply sort_nil_inv in Es. discriminate.
    + reflexivity.
Qed.

Lemma callback_value (node : ValueNode) treeWith st :
  fst (fst (callback toString fix_ margin propertyName decl category node treeWith st))
  = fixedValue fix_ category node.
Proof.
  rewrite callback_unfold. unfold fixedValue, rewrites, exactToken.
  destruct (skipped category node); [reflexivity|].
  destruct (getTruthy (tokens category) (node_value node)); reflexivity.
Qed.

Lemma callback_declValue (node : ValueNode) treeWith st :
  declValue
    (snd (fst (callback toString fix_ margin propertyName decl category node treeWith st)))
  = if rewrites fix_ category node then toString (treeWith (fixedValue fix_ category node)) else declValue st.
Proof.
  rewrite callback_unfold. unfold fixedValue, rewrites, exactToken.
  destruct (skipped category node); [reflexivity|].
  destruct (getTruthy (tokens category) (node_value node)) as [tok|].
  - cbn. destruct (fix_ && negb (node_value node =? tok)); reflexivity.
  - cbn [fst snd]. destruct (extractPxValue (node_value node)); [|reflexivity].
    destruct (gtb margin zero); reflexivity.
Qed.

(** The callback returns [false] for word nodes only, which have no children
    to skip. *)
Lemma callback_descends (node : ValueNode) treeWith st :
  snd (callback toString fix_ margin propertyName decl category node treeWith st)
  && isFunction (node_type node)
  = isFunction (node_type node).
Proof.
  rewrite callback_unfold.
  destruct (skipped category node) eqn:Hs; [reflexivity|].
  destruct (getTruthy (tokens category) (node_value node)); [|reflexivity].
  cbn. unfold skipped in Hs.
  destruct (node_type node); cbn in Hs; try discriminate; reflexivity.
Qed.

End CallbackFacts.

Section VisitFacts.
Import JSNumber.

Variable margin : number.
Variable propertyName : string.
Variable decl : Declaration.
Variable category : TokenCategory.

Lemma visit_unfold (node : ValueNode) :
  visit margin propertyName decl category node
  = if skipped category node then []
    else
      match getTruthy (tokens category) (node_value node) with
      | Some tokenToSuggest =>
          [Reported
             (exactMatchProblem propertyName tokenToSuggest (node_value node)
                (startIndexOf decl node) (endIndexOf decl node))]
      | None =>
          match extractPxValue (node_value node) with
          | Some m =>
              if gtb margin zero
              then closeReports margin decl category m node
              else []
          | None => []
          end
      end.
Proof.
  unfold visit. rewrite callback_unfold.
  destruct (skipped category node); [reflexivity|].
  destruct (getTruthy (tokens category) (node_value node)); [reflexivity|].
  cbn [fst snd].
  destruct (extractPxValue (node_value node)); [|reflexivity].
  destruct (gtb margin zero); reflexivity.
Qed.

(** A visit adds its warnings to the result, whatever the state and the
    fix mode. *)
Lemma callback_result toString fix_ (node : ValueNode) treeWith st :
  result
    (snd (fst (callback toString fix_ margin propertyName decl category node treeWith st)))
  = (result st ++ visit margin propertyName decl category node)%list.
Proof.
  rewrite visit_unfold, callback_unfold.
  destruct (skipped category node); [cbn; now rewrite app_nil_r|].
  destruct (getTruthy (tokens category) (node_value node)) as [tok|].
  - cbn. destruct (fix_ && negb (node_value node =? tok)); reflexivity.
  - cbn [fst snd].
    destruct (extractPxValue (node_value node)); [|now rewrite app_nil_r].
    destruct (gtb margin zero); [reflexivity | now rewrite app_nil_r].
Qed.

End VisitFacts.

(** ** The walk *)

Lemma ValueNode_ind (P : ValueNode -> Prop) :
  (forall t v i children, Forall P children -> P (Node t v i children)) ->
  forall node, P node.
Proof.
  intros step. fix IH 1. intros [t v i children]. apply step.
  induction children as [|n rest IHrest]; constructor; [apply IH | exact IHrest].
Qed.

Section WalkFacts.

Variable toString : list ValueNode -> string.
Variable fix_ : bool.
Variable margin : number.
Variable propertyName : string.
Variable decl : Declaration.
Variable category : TokenCategory.

Let cb := callback toString fix_ margin propertyName decl category.

Lemma walkNode_unfold {S : Type} (f : ValueNode -> (string -> list ValueNode) -> S -> string * S * bool)
    t v i children treeWith (s : S) :
  walkNode f (Node t v i children) treeWith s
  = let '(v', s1, result) :=
      f (Node t v i children) (fun x => treeWith (Node t x i children)) s in
    if result && isFunction t then
      let '(children', s2) :=
        walkList f (fun l => treeWith (Node t v' i l)) [] children s1 in
      (Node t v' i children', s2)
    else (Node t v' i children, s1).
Proof.
  cbn [walkNode].
  destruct (f (Node t v i children) _ s) as [[v' s1] res].
  destruct (res && isFunction t); [|reflexivity].
  match goal with
  | |- (let '(_, _) := ?inner [] children s1 in _) = _ =>
      enough (H : forall rest visited s',
                 inner visited rest s'
                 = walkList f (fun l => treeWith (Node t v' i l)) visited rest s')
        by (now rewrite H)
  end.
  induction rest as [|n rest IH]; intros visited s'; [reflexivity|].
  cbn [walkList].
  destruct (walkNode f n _ s') as [n' s''].
  apply IH.
Qed.

Lemma existsb_flat_map {A B : Type} (f : B -> bool) (g : A -> list B) (l : list A) :
  existsb f (flat_map g l) = existsb (fun x => existsb f (g x)) l.
Proof.
  induction l as [|x l IH]; [reflexivity|].
  cbn [flat_map existsb]. now rewrite existsb_app, IH.
Qed.

Lemma rewritesIn_cons (node : ValueNode) (rest : list ValueNode) :
  rewritesIn fix_ category (node :: rest) = rewritesIn fix_ category [node] || rewritesIn fix_ category rest.
Proof.
  unfold rewritesIn. cbn [flat_map]. now rewrite app_nil_r, existsb_app.
Qed.

Lemma visitAll_cons (node : ValueNode) (rest : list ValueNode) :
  visitAll margin propertyName decl category (node :: rest) = (visitAll margin propertyName decl category [node] ++ visitAll margin propertyName decl category rest)%list.
Proof.
  unfold visitAll. cbn [flat_map]. now rewrite app_nil_r, flat_map_app.
Qed.

Lemma fixedValue_same (node : ValueNode) :
  rewrites fix_ category node = false -> fixedValue fix_ category node = node_value node.
Proof.
  unfold fixedValue. intros ->. now destruct (exactToken category node).
Qed.

(** A walk that rewrites no node leaves the tree as it is. *)
Lemma fixNode_same (node : ValueNode) :
  rewritesIn fix_ category [node] = false -> fixNode fix_ category node = node.
Proof.
  induction node as [t v i children IH] using ValueNode_ind.
  unfold rewritesIn. cbn [flat_map visitOrder]. rewrite app_nil_r.
  cbn [existsb]. intros H. apply orb_false_iff in H as [Hnode Hrest].
  cbn [fixNode]. rewrite (fixedValue_same _ Hnode). cbn [node_value]. f_equal.
  destruct (isFunction t); [|reflexivity].
  rewrite existsb_flat_map in Hrest. clear Hnode.
  induction IH as [|n rest Hn _ IHrest]; [reflexivity|].
  cbn [existsb] in Hrest. apply orb_false_iff in Hrest as [H1 H2].
  cbn [map]. rewrite IHrest by exact H2. f_equal. apply Hn.
  unfold rewritesIn. cbn [flat_map]. now rewrite app_nil_r.
Qed.

Lemma fixNodes_same (tree : list ValueNode) :
  rewritesIn fix_ category tree = false -> map (fixNode fix_ category) tree = tree.
Proof.
  induction tree as [|n rest IH]; [reflexivity|].
  rewrite rewritesIn_cons. intros H. apply orb_false_iff in H as [H1 H2].
  cbn [map]. now rewrite (fixNode_same n H1), (IH H2).
Qed.

(** Function nodes are skipped by the callback. *)
Lemma function_skipped (node : ValueNode) :
  isFunction (node_type node) = true -> skipped category node = true.
Proof.
  unfold skipped. destruct (node_type node); cbn; congruence.
Qed.

Lemma walkList_walked (rest : list ValueNode) :
  Forall
    (fun node => forall treeWith st,
         walkNode cb node treeWith st
         = (fixNode fix_ category node, snd (walked toString fix_ margin propertyName decl category (fun l => treeWith (hd node l)) [] [node] st)))
    rest ->
  forall treeWith visited st,
    walkList cb treeWith visited rest st = walked toString fix_ margin propertyName decl category treeWith visited rest st.
Proof.
  induction 1 as [|n rest Hn _ IH]; intros treeWith visited st.
  - unfold walked, rewritesIn, visitAll. cbn. rewrite !app_nil_r. now destruct st.
  - cbn [walkList]. rewrite Hn. rewrite IH. unfold walked. cbn [snd declValue result].
    rewrite (rewritesIn_cons n rest), (visitAll_cons n rest).
    cbn [map hd app]. rewrite <- !app_assoc. cbn [app].
    f_equal. f_equal.
    destruct (rewritesIn fix_ category rest) eqn:Hrest.
    + now rewrite orb_true_r.
    + rewrite orb_false_r. now rewrite (fixNodes_same rest Hrest).
Qed.

Lemma walkNode_walked (node : ValueNode) treeWith st :
  walkNode cb node treeWith st
  = (fixNode fix_ category node, snd (walked toString fix_ margin propertyName decl category (fun l => treeWith (hd node l)) [] [node] st)).
Proof.
  revert treeWith st.
  induction node as [t v i children IH] using ValueNode_ind. intros treeWith st.
  rewrite walkNode_unfold.
  pose proof (callback_value toString fix_ margin propertyName decl category
                (Node t v i children) (fun x => treeWith (Node t x i children)) st) as Hv.
  pose proof (callback_declValue toString fix_ margin propertyName decl category
                (Node t v i children) (fun x => treeWith (Node t x i children)) st) as Hd.
  pose proof (callback_result margin propertyName decl category toString fix_
                (Node t v i children) (fun x => treeWith (Node t x i children)) st) as Hr.
  pose proof (callback_descends toString fix_ margin propertyName decl category
                (Node t v i children) (fun x => treeWith (Node t x i children)) st) as Hc.
  fold cb in Hv, Hd, Hr, Hc.
  destruct (cb (Node t v i children) _ st) as [[v' s1] res].
  cbn [fst snd node_type] in Hv, Hd, Hr, Hc. rewrite Hc. subst v'.
  unfold walked, rewritesIn, visitAll.
  cbn [snd map app hd flat_map visitOrder fixNode]. rewrite !app_nil_r.
  cbn [existsb flat_map].
  destruct (isFunction t) eqn:Hf.
  - rewrite (walkList_walked children IH). unfold walked. cbn [app].
    assert (Hs : skipped category (Node t v i children) = true)
      by (apply function_skipped; exact Hf).
    assert (Hrw : rewrites fix_ category (Node t v i children) = false)
      by (unfold rewrites, exactToken; now rewrite Hs).
    assert (Hvis : visit margin propertyName decl category (Node t v i children) = [])
      by (rewrite visit_unfold; now rewrite Hs).
    rewrite Hrw in Hd. rewrite Hvis, app_nil_r in Hr.
    rewrite Hrw, Hvis. cbn [orb app]. rewrite Hd, Hr.
    reflexivity.
  - rewrite orb_false_r, app_nil_r. f_equal.
    destruct s1 as [d r]. cbn [declValue result] in Hd, Hr. now rewrite Hd, Hr.
Qed.

(** [parsedValue.walk(callback)]: every node is visited, in order; the
    warnings of the visits are added to the result; in fix mode the tree
    is rewritten and, when some node was, the declaration gets the
    serialized tree. *)
Lemma walk_walked (parsedValue : list ValueNode) (st : WalkState) :
  walk cb parsedValue st
  = (map (fixNode fix_ category) parsedValue,
     {| declValue :=
          if rewritesIn fix_ category parsedValue then toString (map (fixNode fix_ category) parsedValue)
          else declValue st;
        result := (result st ++ visitAll margin propertyName decl category parsedValue)%list |}).
Proof.
  unfold walk. rewrite walkList_walked; [reflexivity|].
  apply Forall_forall. intros node _ treeWith st'. apply walkNode_walked.
Qed.

End WalkFacts.

(** ** One declaration *)

Section DeclFacts.

Variable valueParser : string -> list ValueNode.
Variable toString : list ValueNode -> string.

Lemma checkCategory_unfold fix_ margin propertyName decl category st :
  checkCategory valueParser toString fix_ margin propertyName decl category st
  = if includes (properties category) propertyName then
      let parsedValue := valueParser (declValue st) in
      {| declValue :=
           if rewritesIn fix_ category parsedValue
           then toString (map (fixNode fix_ category) parsedValue)
           else declValue st;
         result :=
           (result st ++ visitAll margin propertyName decl category parsedValue)%list |}
    else st.
Proof.
  unfold checkCategory.
  destruct (includes (properties category) propertyName); [|reflexivity].
  now rewrite walk_walked.
Qed.

Lemma rewrites_no_fix category node : rewrites false category node = false.
Proof. unfold rewrites. now destruct (exactToken category node). Qed.

Lemma rewritesIn_no_fix category tree : rewritesIn false category tree = false.
Proof.
  unfold rewritesIn. induction (flat_map visitOrder tree) as [|n l IH]; [reflexivity|].
  cbn [existsb]. now rewrite rewrites_no_fix.
Qed.

Lemma set_value_same (decl : Declaration) : set_value decl (value decl) = decl.
Proof. now destruct decl. Qed.

Lemma fold_categories_no_fix margin decl propertyName
    (activeCategories : JSObject TokenCategory) st :
  fold_left
    (fun st entry =>
       checkCategory valueParser toString false margin propertyName decl (snd entry) st)
    activeCategories st
  = {| declValue := declValue st;
       result :=
         (result st
          ++ flat_map
               (fun entry =>
                  if includes (properties (snd entry)) propertyName
                  then visitAll margin propertyName decl (snd entry)
                         (valueParser (declValue st))
                  else [])
               activeCategories)%list |}.
Proof.
  revert st. induction activeCategories as [|[name category] rest IH]; intros st.
  - cbn. rewrite app_nil_r. now destruct st.
  - cbn [fold_left flat_map snd]. rewrite IH, checkCategory_unfold.
    destruct (includes (properties category) propertyName).
    + cbn [declValue result]. rewrite rewritesIn_no_fix.
      now rewrite <- app_assoc.
    + reflexivity.
Qed.

(** Without fix mode a declaration keeps its value, and every category that
    lists its property adds its own warnings, in the order of the catalog. *)
Lemma checkDecl_no_fix margin activeCategories decl warnings :
  checkDecl valueParser toString false margin activeCategories decl warnings
  = (decl,
     if ignoredDecl decl then warnings
     else (warnings
           ++ flat_map (fun entry => categoryReports valueParser margin decl (snd entry))
                activeCategories)%list).
Proof.
  unfold checkDecl. fold (ignoredDecl decl).
  destruct (ignoredDecl decl); [reflexivity|].
  rewrite fold_categories_no_fix. cbn [declValue result].
  now rewrite set_value_same.
Qed.



(** A property that holds of the warnings of every visit holds of all the
    warnings a declaration adds. *)
Lemma checkDecl_warnings (P : Warning -> Prop) fix_ margin activeCategories decl warnings :
  (forall propertyName d category node,
      Forall P (visit margin propertyName d category node)) ->
  Forall P warnings ->
  Forall P (snd (checkDecl valueParser toString fix_ margin activeCategories decl warnings)).
Proof.
  intros Hvisit Hw. unfold checkDecl. destruct (_ || _); [exact Hw|].
  cbn [snd].
  set (st := {| declValue := value decl; result := warnings |}).
  assert (Hst : Forall P (result st)) by exact Hw.
  clearbody st. revert st Hst.
  induction activeCategories as [|[name category] rest IH]; intros st Hst; [exact Hst|].
  cbn [fold_left snd]. apply IH.
  rewrite checkCategory_unfold.
  destruct (includes (properties category) _); [|exact Hst].
  cbn [result]. apply Forall_app. split; [exact Hst|].
  unfold visitAll. apply Forall_flat_map, Forall_forall. intros node _. apply Hvisit.
Qed.

Lemma walkDecls_warnings (P : Warning -> Prop) fix_ margin activeCategories root warnings :
  (forall propertyName d category node,
      Forall P (visit margin propertyName d category node)) ->
  Forall P warnings ->
  Forall P (snd (walkDecls valueParser toString fix_ margin activeCategories root warnings)).
Proof.
  intros Hvisit. revert warnings.
  induction root as [|decl rest IH]; intros warnings Hw; [exact Hw|].
  cbn [walkDecls].
  pose proof (checkDecl_warnings P fix_ margin activeCategories decl warnings Hvisit Hw) as H1.
  destruct (checkDecl _ _ _ _ _ decl warnings) as [decl' warnings1].
  specialize (IH warnings1 H1).
  destruct (walkDecls _ _ _ _ _ rest warnings1) as [rest' warnings2].
  exact IH.
Qed.

End DeclFacts.

(** ** Runs of the rule *)

Section Runs.

Let pass (fix_ : bool) (margin : option number) (catalog : JSObject RawCategory)
    (root : list Declaration) : list Declaration * list Warning :=
  ruleImpl PlainValue.valueParser PlainValue.toString (fun _ => ParsedObject catalog)
    true (Some {| tokenMatchMargin := margin; tokensFilePath := "tokens.json" |})
    fix_ root [].

Let spacing (entries : JSObject string) : JSObject RawCategory :=
  [("spacing", {| raw_properties := Some ["margin"]; raw_tokens := Some entries |})].

Let margin_ (text : string) : Declaration :=
  {| prop := "margin"; value := text; raws_between := Some ": ";
     source_start := Some (1, 1) |}.

(** One exact match, reported over the literal. *)
Example run_exact_match :
  pass false None (spacing [("16px", "var(--s-4)")]) [margin_ "16px"]
  = ([margin_ "16px"],
     [Reported (exactMatchProblem "margin" "var(--s-4)" "16px" 8 12)]).
Proof. reflexivity. Qed.

(** A distance equal to the margin is a close match, a larger one is not. *)
Example run_margin_boundary :
  snd (pass false (Some (Finite 2)) (spacing [("14px", "--a"); ("19px", "--b")])
         [margin_ "16px"])
  = [Reported
       (closeMatchProblem
          {| tokenPxValue := "14px"; tokenName := "--a"; diff := Finite 2 |}
          EmptyString "16px" 8 12)].
Proof. reflexivity. Qed.

(** A value with text between the number and the unit is read as the
    number and gets close matches. *)
Example run_leading_number :
  snd (pass false None (spacing [("10px", "--s")]) [margin_ "12abcpx"])
  = [Reported
       (closeMatchProblem
          {| tokenPxValue := "10px"; tokenName := "--s"; diff := Finite 2 |}
          EmptyString "12abcpx" 8 15)].
Proof. reflexivity. Qed.

(** A zero without a token for it is passed over; other nodes are checked. *)
Example run_zero_skipped :
  snd (pass false None (spacing [("1px", "--hair")]) [margin_ "0 1px"])
  = [Reported (exactMatchProblem "margin" "--hair" "1px" 10 13)].
Proof. reflexivity. Qed.

(** In fix mode the matched literals are replaced and the value is
    serialized again; the problems are still reported. *)
Example run_fix :
  pass true None (spacing [("16px", "1rem"); ("8px", "0.5rem")]) [margin_ "16px 3em 8px"]
  = ([margin_ "1rem 3em 0.5rem"],
     [Reported (exactMatchProblem "margin" "1rem" "16px" 8 12);
      Reported (exactMatchProblem "margin" "0.5rem" "8px" 17 20)]).
Proof. reflexivity. Qed.

(** A walk goes into the arguments of a function. *)
Example walk_function_arguments :
  let category := {| properties := ["margin"]; tokens := [("16px", "--s-4")] |} in
  let tree :=
    [Node func "calc" 0
       [Node word "16px" 5 []; Node space " " 9 []; Node word "+" 10 [];
        Node space " " 11 []; Node word "1em" 12 []]] in
  snd (walk (callback PlainValue.toString true (Finite 2) "margin"
               (margin_ "calc(16px + 1em)") category)
         tree {| declValue := "calc(16px + 1em)"; result := [] |})
  = {| declValue := "calc(--s-4 + 1em)";
       result := [Reported (exactMatchProblem "margin" "--s-4" "16px" 13 17)] |}.
Proof. reflexivity. Qed.

End Runs.

(** * The statements of the specification *)

(** ** The Pixel-Value Reader *)

(** C8. [extractPxValue] reads "0" as the number 0; it reads a value with
    the px suffix as the number [parseFloat] finds in what precedes the
    suffix, and as nothing when [parseFloat] finds none there (as for abcpx);
    every value with the suffix is of that form; and it reads any other value
    (no suffix and not "0", as 10%) as nothing.  In particular a complete
    numeric literal followed by px reads as the value of the literal. *)
Theorem extractPxValue_reader :
  extractPxValue "0" = Some (Finite 0)
  /\ (forall numericPart n,
        JSNumber.parseFloat numericPart = n -> JSNumber.isNaN n = false ->
        extractPxValue (numericPart ++ "px") = Some n)
  /\ (forall numericPart,
        JSNumber.parseFloat numericPart = NaN ->
        extractPxValue (numericPart ++ "px") = None)
  /\ (forall raw, hasPxUnit raw = true -> exists numericPart, raw = numericPart ++ "px")
  /\ (forall raw, hasPxUnit raw = false -> raw <> "0" -> extractPxValue raw = None)
  /\ (forall literal n,
        JSNumber.scanStrDecimalLiteral literal = Some (n, EmptyString) ->
        extractPxValue (literal ++ "px") = Some n)
  /\ extractPxValue "abcpx" = None
  /\ extractPxValue "10%" = None.
Proof.
  repeat split.
  - intros numericPart n Hn Hnan. rewrite extractPxValue_px, Hn, Hnan. reflexivity.
  - intros numericPart Hn. rewrite extractPxValue_px, Hn. reflexivity.
  - intros raw H. eexists. apply (hasPxUnit_split raw H).
  - apply extractPxValue_other.
  - intros literal n Hscan. rewrite extractPxValue_px.
    rewrite <- (app_empty_r literal).
    rewrite (ParseFloatFacts.parseFloat_app literal EmptyString n Hscan I).
    now rewrite (ParseFloatFacts.scanned_not_NaN _ _ _ Hscan).
Qed.

Lemma extractPxValue_reader_witness :
  extractPxValue "16px" = Some (Finite 16)
  /\ extractPxValue "1.5px" = Some (Finite (3 # 2))
  /\ extractPxValue "%px" = None
  /\ extractPxValue "1rem" = None.
Proof.
  destruct extractPxValue_reader as (_ & Hpx & Hnan & _ & Hother & Hlit & _).
  split; [exact (Hpx "16" (Finite 16) eq_refl eq_refl)|].
  split; [exact (Hlit "1.5" (Finite (3 # 2)) eq_refl)|].
  split; [exact (Hnan "%" eq_refl)|].
  apply (Hother "1rem"); [reflexivity | discriminate].
Defined.

Lemma hasPxUnit_not_zero (v : string) : hasPxUnit v = true -> (v =? "0") = false.
Proof.
  intros H. destruct (String.eqb_spec v "0") as [->|]; [discriminate | reflexivity].
Qed.

(** C10. When what precedes the px suffix is a complete numeric literal
    followed by characters that are no part of a number (12abcpx), the
    reader returns the value of the literal, not nothing.  A word node with
    such a value is therefore not skipped: in a category where it is no
    exact match, and with a positive margin, the callback runs the
    close-match search for that number. *)
Theorem extractPxValue_leading_number (literal rest : string) (n : number) :
  JSNumber.scanStrDecimalLiteral literal = Some (n, EmptyString) ->
  startsNonNumeric rest ->
  extractPxValue (literal ++ rest ++ "px") = Some n
  /\ forall toString fix_ margin propertyName decl category i children treeWith st,
       getTruthy (tokens category) (literal ++ rest ++ "px") = None ->
       JSNumber.gtb margin JSNumber.zero = true ->
       let node := Node word (literal ++ rest ++ "px") i children in
       callback toString fix_ margin propertyName decl category node treeWith st
       = (literal ++ rest ++ "px",
          {| declValue := declValue st;
             result := (result st ++ closeReports margin decl category n node)%list |},
          true).
Proof.
  intros Hscan Hrest.
  assert (Hread : extractPxValue (literal ++ rest ++ "px") = Some n).
  { rewrite <- app_assoc_string, extractPxValue_px.
    rewrite (ParseFloatFacts.parseFloat_app literal rest n Hscan Hrest).
    now rewrite (ParseFloatFacts.scanned_not_NaN _ _ _ Hscan). }
  split; [exact Hread|].
  intros toString fix_ margin propertyName decl category i children treeWith st
         Hexact Hmargin node.
  assert (Hpx : hasPxUnit (literal ++ rest ++ "px") = true)
    by (rewrite <- app_assoc_string; apply hasPxUnit_app).
  rewrite callback_unfold. unfold skipped. subst node. cbn [node_type node_value isWord].
  rewrite Hpx, (hasPxUnit_not_zero _ Hpx), Hread, Hexact, Hmargin.
  reflexivity.
Qed.

Lemma extractPxValue_leading_number_witness :
  extractPxValue "12abcpx" = Some (Finite 12)
  /\ forall toString fix_ margin propertyName decl category i children treeWith st,
       getTruthy (tokens category) "12abcpx" = None ->
       JSNumber.gtb margin JSNumber.zero = true ->
       let node := Node word "12abcpx" i children in
       callback toString fix_ margin propertyName decl category node treeWith st
       = ("12abcpx",
          {| declValue := declValue st;
             result := (result st ++ closeReports margin decl category (Finite 12) node)%list |},
          true).
Proof.
  exact (extractPxValue_leading_number "12" "abc" (Finite 12) eq_refl eq_refl).
Defined.

(** ** The close-match search and its ranking *)

Lemma visit_margin_not_positive (margin : number) propertyName decl category node :
  JSNumber.gtb margin JSNumber.zero = false ->
  visit margin propertyName decl category node = []
  \/ exists tokenToSuggest,
       visit margin propertyName decl category node
       = [Reported
            (exactMatchProblem propertyName tokenToSuggest (node_value node)
               (startIndexOf decl node) (endIndexOf decl node))].
Proof.
  intros Hm. rewrite visit_unfold.
  destruct (skipped category node); [now left|].
  destruct (getTruthy (tokens category) (node_value node)) as [tok|].
  - right. now exists tok.
  - left. destruct (extractPxValue (node_value node)); [|reflexivity].
    now rewrite Hm.
Qed.

(** X19. Without a positive margin there is no close-match diagnostic: a
    visit reports at most an exact match, and a pass with valid options whose
    margin is not positive adds no problem of warning severity. *)
Theorem no_close_match_without_margin :
  (forall margin propertyName decl category node,
      JSNumber.gtb margin JSNumber.zero = false ->
      Forall notCloseMatch (visit margin propertyName decl category node))
  /\ (forall valueParser toString tokensFileAt primaryOption options fix_ root margin,
        validateOptions (Some options) = true ->
        tokenMatchMargin options = Some margin ->
        JSNumber.gtb margin JSNumber.zero = false ->
        Forall notCloseMatch
          (snd (ruleImpl valueParser toString tokensFileAt primaryOption
                  (Some options) fix_ root []))).
Proof.
  assert (Hvisit : forall margin propertyName decl category node,
             JSNumber.gtb margin JSNumber.zero = false ->
             Forall notCloseMatch (visit margin propertyName decl category node)).
  { intros margin propertyName decl category node Hm.
    destruct (visit_margin_not_positive margin propertyName decl category node Hm)
      as [-> | [tok ->]]; repeat constructor. }
  split; [exact Hvisit|].
  intros valueParser toString tokensFileAt primaryOption options fix_ root margin
         _ Hopt Hm.
  unfold ruleImpl. rewrite Hopt.
  destruct (negb _ || negb primaryOption); [constructor|].
  destruct (loadCategories tokensFileAt options) as [w|activeCategories] eqn:Hload.
  - cbn [snd app]. constructor; [|constructor].
    unfold loadCategories in Hload.
    destruct (tokensFileAt (tokensFilePath options)); try (injection Hload as <-; exact I).
    destruct (validateCategories activeCategories); [|discriminate].
    injection Hload as <-. exact I.
  - destruct (List.length activeCategories =? 0)%nat; [constructor|].
    apply walkDecls_warnings; [|constructor].
    intros propertyName d category node. now apply Hvisit.
Qed.

Lemma no_close_match_without_margin_witness :
  Forall notCloseMatch
    (visit (Finite 0) "margin" spacingDecl
       {| properties := ["margin"]; tokens := [("14px", "--a"); ("18px", "--b")] |}
       (Node word "16px" 0 []))
  /\ Forall notCloseMatch
       (snd (ruleImpl PlainValue.valueParser PlainValue.toString
               (fun _ => ParsedObject twoCategories) true
               (Some {| tokenMatchMargin := Some (Finite 0);
                        tokensFilePath := "tokens.json" |})
               false [spacingDecl] [])).
Proof.
  destruct no_close_match_without_margin as (Hzero & Hpass).
  split.
  - apply Hzero. reflexivity.
  - now apply (Hpass _ _ _ _ _ _ _ (Finite 0)).
Defined.

Lemma otherSuggestions_cons (bestMatch : CloseMatch) (others : list CloseMatch) :
  otherSuggestions (bestMatch :: others)
  = JSString.join ", " (map suggestionText others).
Proof.
  unfold otherSuggestions. destruct others; reflexivity.
Qed.






(** ** The catalog *)

Lemma validateCategories_malformed (activeCategories : JSObject RawCategory) :
  (exists key raw, In (key, raw) activeCategories /\ malformed raw) ->
  exists key raw,
    In (key, raw) activeCategories /\ malformed raw
    /\ validateCategories activeCategories
       = inl ("Token category '" ++ key
                ++ "' is missing 'properties' or 'tokens' field.").
Proof.
  induction activeCategories as [|[k r] rest IH]; intros (key & raw & Hin & Hbad).
  - destruct Hin.
  - cbn [validateCategories].
    destruct (raw_properties r) as [p|] eqn:Hp.
    + destruct (raw_tokens r) as [t|] eqn:Ht.
      * destruct Hin as [[= <- <-]|Hin].
        { destruct Hbad; congruence. }
        destruct IH as (key' & raw' & Hin' & Hbad' & ->); [now exists key, raw|].
        exists key', raw'. repeat split; [now right | exact Hbad'].
      * exists k, r. repeat split; [now left | now right].
    + exists k, r. repeat split; [now left | now left].
Qed.

(** C5. When some category of the loaded catalog has no [properties] or no
    [tokens], the pass adds a single warning, which names such a category,
    and does nothing else: no declaration is checked or changed, whatever
    the other categories are. *)
Theorem malformed_catalog_rejected
    (valueParser : string -> list ValueNode) (toString : list ValueNode -> string)
    (tokensFileAt : string -> TokensFile) (options : RuleOptions) (fix_ : bool)
    (root : list Declaration) (warnings : list Warning)
    (activeCategories : JSObject RawCategory) :
  validateOptions (Some options) = true ->
  tokensFileAt (tokensFilePath options) = ParsedObject activeCategories ->
  (exists key raw, In (key, raw) activeCategories /\ malformed raw) ->
  exists key raw,
    In (key, raw) activeCategories /\ malformed raw
    /\ ruleImpl valueParser toString tokensFileAt true (Some options) fix_ root warnings
       = (root, (warnings ++ [ParseError (missingFieldText key)])%list).
Proof.
  intros Hvalid Hfile Hbad.
  destruct (validateCategories_malformed activeCategories Hbad)
    as (key & raw & Hin & Hraw & Hthrown).
  exists key, raw. split; [exact Hin|]. split; [exact Hraw|].
  unfold ruleImpl. rewrite Hvalid. cbn [negb orb].
  unfold loadCategories. rewrite Hfile, Hthrown. reflexivity.
Qed.

Lemma malformed_catalog_rejected_witness :
  let options := {| tokenMatchMargin := None; tokensFilePath := "tokens.json" |} in
  let spacing :=
    {| raw_properties := Some ["margin"]; raw_tokens := Some [("16px", "--s-4")] |} in
  let broken := {| raw_properties := Some ["padding"]; raw_tokens := None |} in
  let decl :=
    {| prop := "margin"; value := "16px"; raws_between := Some ": ";
       source_start := Some (1, 1) |} in
  exists key raw,
    In (key, raw) [("spacing", spacing); ("broken", broken)] /\ malformed raw
    /\ ruleImpl PlainValue.valueParser PlainValue.toString
         (fun _ => ParsedObject [("spacing", spacing); ("broken", broken)])
         true (Some options) false [decl] []
       = ([decl], [ParseError (missingFieldText key)]).
Proof.
  intros options spacing broken decl.
  apply (malformed_catalog_rejected PlainValue.valueParser PlainValue.toString
           (fun _ => ParsedObject [("spacing", spacing); ("broken", broken)])
           options false [decl] [] [("spacing", spacing); ("broken", broken)]).
  - reflexivity.
  - reflexivity.
  - exists "broken", broken. split; [right; left; reflexivity | right; reflexivity].
Defined.

(** C9. When the options are valid, the rule is switched on and the catalog
    is an object without categories, the pass does nothing: it adds no
    warning and leaves the declarations as they are. *)
Theorem empty_catalog_noop
    (valueParser : string -> list ValueNode) (toString : list ValueNode -> string)
    (tokensFileAt : string -> TokensFile)
    (options : RuleOptions) (fix_ : bool)
    (root : list Declaration) (warnings : list Warning) :
  validateOptions (Some options) = true ->
  tokensFileAt (tokensFilePath options) = ParsedObject [] ->
  ruleImpl valueParser toString tokensFileAt true (Some options) fix_
    root warnings
  = (root, warnings).
Proof.
  intros Hvalid Hfile. unfold ruleImpl. rewrite Hvalid. cbn [negb orb].
  unfold loadCategories. rewrite Hfile. reflexivity.
Qed.

Lemma empty_catalog_noop_witness :
  let decl :=
    {| prop := "margin"; value := "16px"; raws_between := Some ": ";
       source_start := Some (1, 1) |} in
  ruleImpl PlainValue.valueParser PlainValue.toString (fun _ => ParsedObject [])
    true (Some {| tokenMatchMargin := None; tokensFilePath := "tokens.json" |}) true
    [decl] []
  = ([decl], []).
Proof.
  intros decl.
  exact (empty_catalog_noop PlainValue.valueParser PlainValue.toString
           (fun _ => ParsedObject [])
           {| tokenMatchMargin := None; tokensFilePath := "tokens.json" |} true
           [decl] [] eq_refl eq_refl).
Defined.

(** ** The visits of a walk *)

Lemma getTruthy_Some (o : JSObject string) (key v : string) :
  getTruthy o key = Some v <-> get o key = Some v /\ v <> EmptyString.
Proof.
  unfold getTruthy, JSString.truthy. split.
  - destruct (get o key) as [w|]; [|discriminate].
    destruct (String.eqb_spec w ""); cbn; [discriminate|].
    intros [= <-]. now split.
  - intros [-> Hv]. destruct (String.eqb_spec v ""); [contradiction | reflexivity].
Qed.

Lemma getTruthy_None (o : JSObject string) (key : string) :
  getTruthy o key = None <-> get o key = None \/ get o key = Some EmptyString.
Proof.
  unfold getTruthy, JSString.truthy. split.
  - destruct (get o key) as [w|]; [|now left].
    destruct (String.eqb_spec w ""); cbn; [subst; now right | discriminate].
  - intros [-> | ->]; reflexivity.
Qed.

(** C6. A node whose text is "0" is skipped when the tokens of the category
    have no key "0" (or give it an empty name): the callback reports nothing
    and changes nothing.  Whatever the category, the margin and the kind of
    the node, its visit adds nothing or exactly one exact-match problem, never
    a close match; for a word node and a key "0" with a name, it adds the
    exact-match problem for that name. *)
Theorem unitless_zero (toString : list ValueNode -> string) (fix_ : bool)
    (margin : number) (propertyName : string) (decl : Declaration)
    (category : TokenCategory) (node : ValueNode)
    (treeWith : string -> list ValueNode) (st : WalkState) :
  node_value node = "0" ->
  let outcome :=
    callback toString fix_ margin propertyName decl category node treeWith st in
  let exactProblem tokenToSuggest :=
    Reported
      (exactMatchProblem propertyName tokenToSuggest "0"
         (startIndexOf decl node) (endIndexOf decl node)) in
  (get (tokens category) "0" = None \/ get (tokens category) "0" = Some EmptyString ->
   outcome = ("0", st, true))
  /\ (result (snd (fst outcome)) = result st
      \/ exists tokenToSuggest,
           get (tokens category) "0" = Some tokenToSuggest
           /\ result (snd (fst outcome))
              = (result st ++ [exactProblem tokenToSuggest])%list)
  /\ (forall tokenToSuggest,
        isWord (node_type node) = true ->
        get (tokens category) "0" = Some tokenToSuggest ->
        tokenToSuggest <> EmptyString ->
        result (snd (fst outcome))
        = (result st ++ [exactProblem tokenToSuggest])%list).
Proof.
  intros Hzero outcome exactProblem. subst outcome exactProblem.
  rewrite callback_unfold. unfold skipped. rewrite Hzero.
  change (hasPxUnit "0") with false. change ("0" =? "0") with true.
  cbn [negb andb orb].
  rewrite orb_false_r.
  split; [|split].
  - intros Hnone. apply getTruthy_None in Hnone. rewrite Hnone. cbn.
    now rewrite orb_true_r.
  - destruct (isWord (node_type node)); cbn [negb orb]; [|now left].
    destruct (getTruthy (tokens category) "0") as [tok|] eqn:Htok;
      cbn [isSome negb]; [|now left].
    right. exists tok. apply getTruthy_Some in Htok as [Hget _].
    split; [exact Hget|].
    cbn [fst snd]. now destruct (fix_ && negb ("0" =? tok)).
  - intros tok Hword Hget Hname. rewrite Hword. cbn [negb orb].
    rewrite (proj2 (getTruthy_Some _ _ _) (conj Hget Hname)). cbn [fst snd isSome negb].
    now destruct (fix_ && negb ("0" =? tok)).
Qed.

Lemma unitless_zero_witness :
  let decl :=
    {| prop := "margin"; value := "0"; raws_between := Some ": ";
       source_start := Some (1, 1) |} in
  let st := {| declValue := "0"; result := [] |} in
  callback PlainValue.toString false (Finite 2) "margin" decl
    {| properties := ["margin"]; tokens := [("1px", "--hair"); ("2px", "--s-1")] |}
    (Node word "0" 0 []) (fun _ => []) st
  = ("0", st, true).
Proof.
  intros decl st.
  exact (proj1
           (unitless_zero PlainValue.toString false (Finite 2) "margin" decl
              {| properties := ["margin"];
                 tokens := [("1px", "--hair"); ("2px", "--s-1")] |}
              (Node word "0" 0 []) (fun _ => []) st eq_refl)
           (or_introl eq_refl)).
Defined.

Lemma skipped_false (category : TokenCategory) (node : ValueNode) :
  skipped category node = false
  <-> isWord (node_type node) = true
      /\ (exists m, extractPxValue (node_value node) = Some m)
      /\ (node_value node = "0" -> isSome (getTruthy (tokens category) "0") = true).
Proof.
  unfold skipped. rewrite !orb_false_iff, !andb_false_iff, !negb_false_iff. split.
  - intros [[[Hword Hshape] Hzero] Hread]. split; [exact Hword|]. split.
    + destruct (extractPxValue (node_value node)) as [m|] eqn:E; [now exists m|].
      destruct Hread as [Hz|Hn]; [|discriminate].
      apply String.eqb_eq in Hz. rewrite Hz in E. discriminate.
    + intros Hz. destruct Hzero as [Hne|H]; [|exact H].
      rewrite Hz in Hne. discriminate.
  - intros (Hword & [m Hm] & Hzero). repeat split.
    + exact Hword.
    + pose proof (extractPxValue_Some_shape _ _ Hm) as H.
      apply orb_true_iff in H as [H|H]; [now left | now right].
    + destruct (String.eqb_spec (node_value node) "0") as [Hz|]; [right | now left].
      now apply Hzero.
    + right. now rewrite Hm.
Qed.

(** A node has an exact match when it is a word that reads as a number and
    whose text is a key with a name. *)
Lemma exactToken_Some (category : TokenCategory) (node : ValueNode) (tok : string) :
  exactToken category node = Some tok
  <-> isWord (node_type node) = true
      /\ (exists m, extractPxValue (node_value node) = Some m)
      /\ get (tokens category) (node_value node) = Some tok
      /\ tok <> EmptyString.
Proof.
  unfold exactToken. split.
  - destruct (skipped category node) eqn:Hs; [discriminate|].
    intros Htok. apply skipped_false in Hs as (Hword & Hread & _).
    apply getTruthy_Some in Htok as [Hget Hname]. auto.
  - intros (Hword & Hread & Hget & Hname).
    assert (Htok : getTruthy (tokens category) (node_value node) = Some tok)
      by (apply getTruthy_Some; auto).
    assert (Hs : skipped category node = false).
    { apply skipped_false. repeat split; auto. intros Hz. rewrite Hz in Htok.
      now rewrite Htok. }
    now rewrite Hs.
Qed.

Lemma visit_exact margin propertyName decl category node tok :
  exactToken category node = Some tok ->
  visit margin propertyName decl category node
  = [Reported
       (exactMatchProblem propertyName tok (node_value node)
          (startIndexOf decl node) (endIndexOf decl node))].
Proof.
  unfold exactToken. rewrite visit_unfold.
  destruct (skipped category node); [discriminate|]. now intros ->.
Qed.

(** C2. A walk calls the callback on every node of the parsed value, in
    parse order (a function node, then its children), and the result gets
    the warnings of each visit in that order, whatever earlier visits found.
    So every node with an exact match in the category is reported, also
    after another node was.  Each category that lists the property walks the
    value; without fix mode a declaration gets, category after category, the
    warnings of all the visits. *)
Theorem walk_visits_every_node
    (valueParser : string -> list ValueNode) (toString : list ValueNode -> string)
    (margin : number) :
  (forall fix_ propertyName decl category parsedValue st,
      result
        (snd (walk (callback toString fix_ margin propertyName decl category)
                parsedValue st))
      = (result st
         ++ flat_map (visit margin propertyName decl category)
              (flat_map visitOrder parsedValue))%list)
  /\ (forall fix_ propertyName decl category parsedValue st node tokenToSuggest,
        In node (flat_map visitOrder parsedValue) ->
        exactToken category node = Some tokenToSuggest ->
        In (Reported
              (exactMatchProblem propertyName tokenToSuggest (node_value node)
                 (startIndexOf decl node) (endIndexOf decl node)))
           (result
              (snd (walk (callback toString fix_ margin propertyName decl category)
                      parsedValue st))))
  /\ (forall fix_ propertyName decl category st,
        includes (properties category) propertyName = true ->
        result (checkCategory valueParser toString fix_ margin propertyName decl
                  category st)
        = (result st
           ++ flat_map (visit margin propertyName decl category)
                (flat_map visitOrder (valueParser (declValue st))))%list)
  /\ (forall activeCategories decl warnings,
        ignoredDecl decl = false ->
        checkDecl valueParser toString false margin activeCategories decl warnings
        = (decl,
           (warnings
            ++ flat_map
                 (fun entry => categoryReports valueParser margin decl (snd entry))
                 activeCategories)%list)).
Proof.
  split; [|split; [|split]].
  - intros. now rewrite walk_walked.
  - intros fix_ propertyName decl category parsedValue st node tok Hin Hexact.
    rewrite walk_walked. cbn [snd result]. apply in_or_app. right.
    unfold visitAll. apply in_flat_map. exists node. split; [exact Hin|].
    rewrite (visit_exact _ _ _ _ _ _ Hexact). now left.
  - intros fix_ propertyName decl category st Hin.
    now rewrite checkCategory_unfold, Hin.
  - intros activeCategories decl warnings Hd.
    now rewrite checkDecl_no_fix, Hd.
Qed.

Lemma walk_visits_every_node_witness :
  let decl :=
    {| prop := "margin"; value := "16px 8px"; raws_between := Some ": ";
       source_start := Some (1, 1) |} in
  let category :=
    {| properties := ["margin"]; tokens := [("16px", "--s-4"); ("8px", "--s-2")] |} in
  result
    (snd (walk (callback PlainValue.toString false (Finite 2) "margin" decl category)
            (PlainValue.valueParser "16px 8px")
            {| declValue := "16px 8px"; result := [] |}))
  = [Reported (exactMatchProblem "margin" "--s-4" "16px" 8 12);
     Reported (exactMatchProblem "margin" "--s-2" "8px" 13 16)].
Proof.
  intros decl category.
  rewrite (proj1 (walk_visits_every_node PlainValue.valueParser PlainValue.toString
                    (Finite 2))).
  reflexivity.
Defined.

(** ** Exact matches and the categories *)

(** C1, as stated, fails: with two categories that list the property and
    hold the literal, the node gets an exact-match diagnostic from each, the
    second one from the later category. *)
Lemma later_category_reports_too :
  ruleImpl PlainValue.valueParser PlainValue.toString
    (fun _ => ParsedObject twoCategories) true (Some defaultOptions) false
    [spacingDecl] []
  = ([spacingDecl],
     [Reported (exactMatchProblem "margin" "var(--space-4)" "16px" 8 12);
      Reported (exactMatchProblem "margin" "var(--size-4)" "16px" 8 12)]).
Proof. reflexivity. Qed.

(** C1, amended. A word node that reads as a number and whose text is a key
    with a name in the tokens of a category gets from that category exactly
    one warning, the exact-match problem with that name, and no close-match
    search is made for it there.  The categories are not alternatives:
    without fix mode every category that lists the property adds the
    warnings of its own walk, in the order of the catalog. *)
Theorem exact_match_per_category
    (valueParser : string -> list ValueNode) (toString : list ValueNode -> string)
    (margin : number) :
  (forall fix_ propertyName decl category node treeWith st m tokenToSuggest,
      isWord (node_type node) = true ->
      extractPxValue (node_value node) = Some m ->
      get (tokens category) (node_value node) = Some tokenToSuggest ->
      tokenToSuggest <> EmptyString ->
      result
        (snd (fst (callback toString fix_ margin propertyName decl category
                     node treeWith st)))
      = (result st
         ++ [Reported
               (exactMatchProblem propertyName tokenToSuggest (node_value node)
                  (startIndexOf decl node) (endIndexOf decl node))])%list)
  /\ (forall activeCategories decl warnings,
        ignoredDecl decl = false ->
        checkDecl valueParser toString false margin activeCategories decl warnings
        = (decl,
           (warnings
            ++ flat_map
                 (fun entry => categoryReports valueParser margin decl (snd entry))
                 activeCategories)%list)).
Proof.
  split.
  - intros fix_ propertyName decl category node treeWith st m tok Hword Hm Hget Hname.
    rewrite callback_result. f_equal. apply visit_exact.
    apply exactToken_Some. eauto.
  - intros activeCategories decl warnings Hd. now rewrite checkDecl_no_fix, Hd.
Qed.

Lemma exact_match_per_category_witness :
  let st := {| declValue := "16px"; result := [] |} in
  result
    (snd (fst (callback PlainValue.toString false (Finite 2) "margin" spacingDecl
                 {| properties := ["margin"];
                    tokens := [("14px", "var(--space-3)"); ("16px", "var(--space-4)")] |}
                 (Node word "16px" 0 []) (fun _ => []) st)))
  = [Reported (exactMatchProblem "margin" "var(--space-4)" "16px" 8 12)].
Proof.
  intros st.
  apply (proj1 (exact_match_per_category PlainValue.valueParser PlainValue.toString
                  (Finite 2))
           false "margin" spacingDecl _ (Node word "16px" 0 []) (fun _ => []) st
           (Finite 16) "var(--space-4)");
    [reflexivity | reflexivity | reflexivity | discriminate].
Defined.

(** ** Fixing *)

Section FixWalkFacts.

Variable category : TokenCategory.

Lemma fixedValue_fix (node : ValueNode) :
  fixedValue true category node
  = match exactToken category node with
    | Some tokenToSuggest => tokenToSuggest
    | None => node_value node
    end.
Proof.
  unfold fixedValue, rewrites.
  destruct (exactToken category node) as [tok|]; [|reflexivity].
  cbn [andb]. destruct (String.eqb_spec (node_value node) tok); cbn; auto.
Qed.

(** What depends on the type, the text and the index of a node only is, on
    the nodes of the walked tree, what it was before with the new text. *)
Lemma visitOrder_fixNode {A : Type} (after before : ValueNode -> A) (fix_ : bool) :
  (forall t v i children children',
      after (Node t (fixedValue fix_ category (Node t v i children)) i children')
      = before (Node t v i children)) ->
  forall node,
    map after (visitOrder (fixNode fix_ category node)) = map before (visitOrder node).
Proof.
  intros Hlocal node.
  induction node as [t v i children IH] using ValueNode_ind.
  cbn [fixNode visitOrder map]. rewrite Hlocal. f_equal.
  destruct (isFunction t); [|reflexivity].
  induction IH as [|n rest Hn _ IHrest]; [reflexivity|].
  cbn [map flat_map]. now rewrite !map_app, Hn, IHrest.
Qed.

Lemma visitOrder_fixNodes {A : Type} (after before : ValueNode -> A) (fix_ : bool)
    (tree : list ValueNode) :
  (forall t v i children children',
      after (Node t (fixedValue fix_ category (Node t v i children)) i children')
      = before (Node t v i children)) ->
  map after (flat_map visitOrder (map (fixNode fix_ category) tree))
  = map before (flat_map visitOrder tree).
Proof.
  intros Hlocal. induction tree as [|n rest IH]; [reflexivity|].
  cbn [map flat_map]. now rewrite !map_app, (visitOrder_fixNode after before fix_ Hlocal), IH.
Qed.

End FixWalkFacts.




Section FixAgainFacts.
Variable valueParser : string -> list ValueNode.
Variable toString : list ValueNode -> string.








End FixAgainFacts.






(** * Further properties of the rule *)

(** ** The pass, declaration by declaration *)

Section PassFacts.

Variable valueParser : string -> list ValueNode.
Variable toString : list ValueNode -> string.

Lemma fold_categories_result fix_ margin propertyName decl
    (activeCategories : JSObject TokenCategory) (st : WalkState) :
  let step := fun st entry =>
    checkCategory valueParser toString fix_ margin propertyName decl (snd entry) st in
  let alone :=
    fold_left step activeCategories {| declValue := declValue st; result := [] |} in
  fold_left step activeCategories st
  = {| declValue := declValue alone;
       result := (result st ++ result alone)%list |}.
Proof.
  intros step. subst step. revert st.
  induction activeCategories as [|[name category] rest IH]; intros st alone.
  - subst alone. cbn. rewrite app_nil_r. now destruct st.
  - subst alone. cbn [fold_left snd].
    rewrite IH. symmetry. rewrite IH. symmetry.
    rewrite !checkCategory_unfold.
    destruct (includes (properties category) propertyName).
    + cbn [declValue result app]. now rewrite <- app_assoc.
    + cbn [declValue result app]. reflexivity.
Qed.

(** The outcome of a declaration does not depend on the warnings so far. *)
Lemma checkDecl_outcome fix_ margin activeCategories decl warnings :
  checkDecl valueParser toString fix_ margin activeCategories decl warnings
  = (fst (declOutcome valueParser toString fix_ margin activeCategories decl),
     (warnings
      ++ snd (declOutcome valueParser toString fix_ margin activeCategories decl))%list).
Proof.
  unfold declOutcome, checkDecl.
  destruct (_ || _); [cbn; now rewrite app_nil_r|].
  cbn [fst snd].
  rewrite (fold_categories_result fix_ margin _ decl activeCategories
             {| declValue := value decl; result := warnings |}).
  reflexivity.
Qed.

Lemma walkDecls_outcomes fix_ margin activeCategories root warnings :
  walkDecls valueParser toString fix_ margin activeCategories root warnings
  = (map (fun decl =>
            fst (declOutcome valueParser toString fix_ margin activeCategories decl))
       root,
     (warnings
      ++ flat_map
           (fun decl =>
              snd (declOutcome valueParser toString fix_ margin activeCategories decl))
           root)%list).
Proof.
  revert warnings. induction root as [|decl rest IH]; intros warnings.
  - cbn. now rewrite app_nil_r.
  - cbn [walkDecls map flat_map]. rewrite checkDecl_outcome, IH.
    now rewrite <- app_assoc.
Qed.

Lemma declOutcome_no_categories fix_ margin decl :
  declOutcome valueParser toString fix_ margin [] decl = (decl, []).
Proof.
  unfold declOutcome, checkDecl. destruct (_ || _); [reflexivity|].
  cbn. now rewrite set_value_same.
Qed.

Lemma declOutcome_sameButValue fix_ margin activeCategories decl :
  sameButValue decl
    (fst (declOutcome valueParser toString fix_ margin activeCategories decl)).
Proof.
  unfold declOutcome, checkDecl, sameButValue.
  destruct (_ || _); cbn; auto.
Qed.

Lemma visit_isReported margin propertyName decl category node :
  Forall isReported (visit margin propertyName decl category node).
Proof.
  rewrite visit_unfold.
  destruct (skipped category node); [constructor|].
  destruct (getTruthy (tokens category) (node_value node)); [repeat constructor|].
  destruct (extractPxValue (node_value node)) as [m|]; [|constructor].
  destruct (JSNumber.gtb margin JSNumber.zero); [|constructor].
  unfold closeReports. destruct (sort byDiff _); repeat constructor.
Qed.

End PassFacts.

Lemma ruleImpl_loaded valueParser toString tokensFileAt options fix_ root warnings
    activeCategories :
  validateOptions (Some options) = true ->
  loadCategories tokensFileAt options = inr activeCategories ->
  ruleImpl valueParser toString tokensFileAt true (Some options) fix_ root warnings
  = walkDecls valueParser toString fix_ (marginOf options) activeCategories root warnings.
Proof.
  intros Hvalid Hload. unfold ruleImpl. rewrite Hvalid, Hload. cbn [negb orb].
  fold (marginOf options).
  destruct activeCategories as [|entry rest]; [|reflexivity].
  cbn [List.length Nat.eqb]. rewrite walkDecls_outcomes.
  f_equal.
  - induction root as [|decl more IH]; [reflexivity|].
    cbn [map]. now rewrite declOutcome_no_categories, <- IH.
  - induction root as [|decl more IH]; [cbn; now rewrite app_nil_r|].
    cbn [flat_map]. rewrite declOutcome_no_categories. exact IH.
Qed.

(** X1. With the catalog loaded, the pass treats the declarations one by
    one: the document after the pass holds, in order, what [checkDecl] makes
    of each declaration on its own, and the warnings added are those of the
    declarations, in document order.  No declaration influences another. *)
Theorem pass_per_declaration
    (valueParser : string -> list ValueNode) (toString : list ValueNode -> string)
    (tokensFileAt : string -> TokensFile) (options : RuleOptions) (fix_ : bool)
    (root : list Declaration) (warnings : list Warning)
    (activeCategories : JSObject TokenCategory) :
  validateOptions (Some options) = true ->
  loadCategories tokensFileAt options = inr activeCategories ->
  ruleImpl valueParser toString tokensFileAt true (Some options) fix_ root warnings
  = (map (fun decl =>
            fst (declOutcome valueParser toString fix_ (marginOf options)
                   activeCategories decl))
       root,
     (warnings
      ++ flat_map
           (fun decl =>
              snd (declOutcome valueParser toString fix_ (marginOf options)
                     activeCategories decl))
           root)%list).
Proof.
  intros Hvalid Hload.
  rewrite (ruleImpl_loaded _ _ _ _ _ _ _ _ Hvalid Hload).
  apply walkDecls_outcomes.
Qed.

Lemma pass_per_declaration_witness :
  let catalog :=
    [("spacing", {| properties := ["margin"]; tokens := [("16px", "1rem")] |})] in
  let wide :=
    {| prop := "margin"; value := "16px"; raws_between := Some ": ";
       source_start := Some (1, 1) |} in
  let narrow :=
    {| prop := "margin"; value := "15px"; raws_between := Some ": ";
       source_start := Some (2, 1) |} in
  ruleImpl PlainValue.valueParser PlainValue.toString
    (fun _ => ParsedObject (map rawEntry catalog)) true (Some defaultOptions) true
    [wide; narrow] []
  = ([fst (declOutcome PlainValue.valueParser PlainValue.toString true (Finite 2)
             catalog wide);
      fst (declOutcome PlainValue.valueParser PlainValue.toString true (Finite 2)
             catalog narrow)],
     (snd (declOutcome PlainValue.valueParser PlainValue.toString true (Finite 2)
             catalog wide)
      ++ snd (declOutcome PlainValue.valueParser PlainValue.toString true (Finite 2)
                catalog narrow) ++ [])%list).
Proof.
  intros catalog wide narrow.
  exact (pass_per_declaration PlainValue.valueParser PlainValue.toString
           (fun _ => ParsedObject (map rawEntry catalog)) defaultOptions true
           [wide; narrow] [] catalog eq_refl eq_refl).
Defined.

Lemma loadCategories_failure tokensFileAt options (w : Warning) :
  loadCategories tokensFileAt options = inl w -> exists text, w = ParseError text.
Proof.
  unfold loadCategories.
  destruct (tokensFileAt (tokensFilePath options)) as [path|message| |raw];
    try (intros [= <-]; eexists; reflexivity).
  destruct (validateCategories raw); [|discriminate].
  intros [= <-]. eexists; reflexivity.
Qed.

Lemma ruleImpl_cases valueParser toString tokensFileAt primaryOption
    secondaryOptionsObject fix_ root warnings :
  ruleImpl valueParser toString tokensFileAt primaryOption secondaryOptionsObject
    fix_ root warnings = (root, warnings)
  \/ (exists text,
        ruleImpl valueParser toString tokensFileAt primaryOption secondaryOptionsObject
          fix_ root warnings = (root, (warnings ++ [ParseError text])%list))
  \/ (exists options activeCategories,
        secondaryOptionsObject = Some options
        /\ ruleImpl valueParser toString tokensFileAt primaryOption
             secondaryOptionsObject fix_ root warnings
           = walkDecls valueParser toString fix_ (marginOf options) activeCategories
               root warnings).
Proof.
  unfold ruleImpl. destruct secondaryOptionsObject as [options|]; [|now left].
  destruct (negb _ || negb primaryOption); [now left|].
  destruct (loadCategories tokensFileAt options) as [w|activeCategories] eqn:Hload.
  - right. left. destruct (loadCategories_failure _ _ _ Hload) as [text ->].
    now exists text.
  - destruct (List.length activeCategories =? 0)%nat; [now left|].
    right. right. now exists options, activeCategories.
Qed.

(** X2. Without fix mode the pass changes no declaration, whatever the
    options, the tokens file and the document. *)
Theorem pass_without_fix_keeps_declarations
    (valueParser : string -> list ValueNode) (toString : list ValueNode -> string)
    (tokensFileAt : string -> TokensFile) (primaryOption : bool)
    (secondaryOptionsObject : option RuleOptions)
    (root : list Declaration) (warnings : list Warning) :
  fst (ruleImpl valueParser toString tokensFileAt primaryOption secondaryOptionsObject
         false root warnings)
  = root.
Proof.
  destruct (ruleImpl_cases valueParser toString tokensFileAt primaryOption
              secondaryOptionsObject false root warnings)
    as [-> | [[text ->] | (options & activeCategories & _ & ->)]];
    try reflexivity.
  rewrite walkDecls_outcomes. cbn [fst].
  induction root as [|decl rest IH]; [reflexivity|].
  cbn [map]. rewrite IH. f_equal.
  unfold declOutcome. now rewrite checkDecl_no_fix.
Qed.

(** X3. In either mode the pass keeps the declarations in number and in
    order, and changes nothing of a declaration but its value. *)
Theorem pass_keeps_declaration_shape
    (valueParser : string -> list ValueNode) (toString : list ValueNode -> string)
    (tokensFileAt : string -> TokensFile) (primaryOption : bool)
    (secondaryOptionsObject : option RuleOptions) (fix_ : bool)
    (root : list Declaration) (warnings : list Warning) :
  Forall2 sameButValue root
    (fst (ruleImpl valueParser toString tokensFileAt primaryOption
            secondaryOptionsObject fix_ root warnings)).
Proof.
  assert (Hrefl : forall l, Forall2 sameButValue l l).
  { induction l; constructor; [now repeat split | assumption]. }
  destruct (ruleImpl_cases valueParser toString tokensFileAt primaryOption
              secondaryOptionsObject fix_ root warnings)
    as [-> | [[text ->] | (options & activeCategories & _ & ->)]];
    try apply Hrefl.
  rewrite walkDecls_outcomes. cbn [fst].
  induction root as [|decl rest IH]; cbn [map]; constructor;
    [apply declOutcome_sameButValue | exact IH].
Qed.

(** X4. With valid options the pass only adds to the warnings it is given.
    Either it adds a single parse error and leaves the document as it is, or
    it adds reported problems only. *)
Theorem pass_adds_parse_error_or_problems
    (valueParser : string -> list ValueNode) (toString : list ValueNode -> string)
    (tokensFileAt : string -> TokensFile) (primaryOption : bool)
    (options : RuleOptions) (fix_ : bool)
    (root : list Declaration) (warnings : list Warning) :
  validateOptions (Some options) = true ->
  let after :=
    ruleImpl valueParser toString tokensFileAt primaryOption (Some options)
      fix_ root warnings in
  exists added,
    snd after = (warnings ++ added)%list
    /\ ((exists text, added = [ParseError text] /\ fst after = root)
        \/ Forall isReported added).
Proof.
  intros _ after. subst after.
  destruct (ruleImpl_cases valueParser toString tokensFileAt primaryOption
              (Some options) fix_ root warnings)
    as [-> | [[text ->] | (options' & activeCategories & _ & ->)]].
  - exists []. split; [cbn; now rewrite app_nil_r | right; constructor].
  - exists [ParseError text]. split; [reflexivity|]. left. now exists text.
  - rewrite walkDecls_outcomes. cbn [snd]. eexists. split; [reflexivity|]. right.
    apply Forall_flat_map, Forall_forall. intros decl _.
    unfold declOutcome.
    apply (checkDecl_warnings valueParser toString isReported); [|constructor].
    intros. apply visit_isReported.
Qed.

Lemma pass_adds_parse_error_or_problems_witness :
  exists added,
    snd (ruleImpl PlainValue.valueParser PlainValue.toString
           (fun _ => ParsedObject twoCategories) true (Some defaultOptions) false
           [spacingDecl] [])
    = ([] ++ added)%list
    /\ ((exists text,
           added = [ParseError text]
           /\ fst (ruleImpl PlainValue.valueParser PlainValue.toString
                     (fun _ => ParsedObject twoCategories) true (Some defaultOptions)
                     false [spacingDecl] [])
              = [spacingDecl])
        \/ Forall isReported added).
Proof.
  exact (pass_adds_parse_error_or_problems PlainValue.valueParser PlainValue.toString
           (fun _ => ParsedObject twoCategories) true defaultOptions false
           [spacingDecl] [] eq_refl).
Defined.

(** X5. With valid options, a tokens file that is missing, that cannot be
    read or parsed, or that holds no object makes the pass add one parse
    error, which tells which of these it was, and nothing else. *)
Theorem load_failures
    (valueParser : string -> list ValueNode) (toString : list ValueNode -> string)
    (tokensFileAt : string -> TokensFile) (options : RuleOptions) (fix_ : bool)
    (root : list Declaration) (warnings : list Warning) :
  validateOptions (Some options) = true ->
  let after :=
    ruleImpl valueParser toString tokensFileAt true (Some options) fix_ root warnings in
  (forall resolvedPath,
      tokensFileAt (tokensFilePath options) = FileMissing resolvedPath ->
      after
      = (root,
         (warnings
          ++ [ParseError ("Custom tokens file not found at: " ++ resolvedPath)])%list))
  /\ (forall message,
        tokensFileAt (tokensFilePath options) = ReadOrParseFailure message ->
        after
        = (root,
           (warnings
            ++ [ParseError
                  ("Error loading or parsing custom tokens file: " ++ message)])%list))
  /\ (tokensFileAt (tokensFilePath options) = ParsedNonObject ->
      after
      = (root,
         (warnings
          ++ [ParseError
                "Error loading or parsing custom tokens file: Tokens file must be a JSON object."])%list)).
Proof.
  intros Hvalid after. subst after. unfold ruleImpl, loadCategories.
  rewrite Hvalid. cbn [negb orb].
  repeat split; intros; now rewrite H.
Qed.

Lemma load_failures_witness :
  ruleImpl PlainValue.valueParser PlainValue.toString
    (fun path => FileMissing ("/project/" ++ path)) true (Some defaultOptions) true
    [spacingDecl] []
  = ([spacingDecl],
     [ParseError "Custom tokens file not found at: /project/tokens.json"]).
Proof.
  exact (proj1 (load_failures PlainValue.valueParser PlainValue.toString
                  (fun path => FileMissing ("/project/" ++ path)) defaultOptions true
                  [spacingDecl] [] eq_refl)
           "/project/tokens.json" eq_refl).
Defined.

(** ** What a visit reports *)

Lemma leb_refl_number (d : number) :
  JSNumber.isNaN d = false -> JSNumber.leb d d = true.
Proof.
  destruct d as [|[]|x]; cbn; try congruence.
  intros _. apply Qle_bool_iff. lra.
Qed.

(** X7. A visit adds at most one problem.  It is the exact-match problem
    for the name the tokens of the category give the literal, or, when the
    literal has no such name, a close-match problem whose suggestion is an
    entry of the category at a positive distance within the margin from the
    number the literal reads as. *)
Theorem visit_outcomes (margin : number) (propertyName : string)
    (decl : Declaration) (category : TokenCategory) (node : ValueNode) :
  let literal := node_value node in
  let reported := visit margin propertyName decl category node in
  reported = []
  \/ (exists tokenToSuggest,
        isWord (node_type node) = true
        /\ get (tokens category) literal = Some tokenToSuggest
        /\ tokenToSuggest <> EmptyString
        /\ reported
           = [Reported
                (exactMatchProblem propertyName tokenToSuggest literal
                   (startIndexOf decl node) (endIndexOf decl node))])
  \/ (exists m t bestMatch others,
        isWord (node_type node) = true
        /\ getTruthy (tokens category) literal = None
        /\ extractPxValue literal = Some m
        /\ In (tokenPxValue bestMatch, tokenName bestMatch) (tokens category)
        /\ extractPxValue (tokenPxValue bestMatch) = Some t
        /\ diff bestMatch = JSNumber.abs (JSNumber.sub m t)
        /\ JSNumber.gtb (diff bestMatch) JSNumber.zero = true
        /\ JSNumber.leb (diff bestMatch) margin = true
        /\ reported
           = [Reported
                (closeMatchProblem bestMatch
                   (JSString.join ", " (map suggestionText others)) literal
                   (startIndexOf decl node) (endIndexOf decl node))]).
Proof.
  intros literal reported. subst literal reported. rewrite visit_unfold.
  destruct (skipped category node) eqn:Hs; [now left|].
  apply skipped_false in Hs as (Hword & _ & _).
  destruct (getTruthy (tokens category) (node_value node)) as [tok|] eqn:Htok.
  - right. left. exists tok. apply getTruthy_Some in Htok as [Hget Hname]. auto.
  - destruct (extractPxValue (node_value node)) as [m|] eqn:Hm; [|now left].
    destruct (JSNumber.gtb margin JSNumber.zero); [|now left].
    unfold closeReports.
    destruct (sort byDiff (collectCloseMatches m margin (tokens category)))
      as [|best others] eqn:Hsort; [now left|].
    right. right.
    assert (Hin : In best (collectCloseMatches m margin (tokens category))).
    { apply (Permutation_in best (Permutation_sym (sort_perm _))).
      rewrite Hsort. now left. }
    apply collectCloseMatches_In in Hin as (key & name & t & Hentry & Ht & -> & Hpos & Hle).
    exists m, t, {| tokenPxValue := key; tokenName := name; diff := distance m t |}, others.
    rewrite otherSuggestions_cons. cbn [tokenPxValue tokenName diff].
    repeat split; auto.
Qed.

Section OriginFacts.

Variable valueParser : string -> list ValueNode.
Variable toString : list ValueNode -> string.

Lemma fold_categories_origin fix_ margin propertyName decl
    (activeCategories : JSObject TokenCategory) (st : WalkState) (w : Warning) :
  In w
    (result
       (fold_left
          (fun st entry =>
             checkCategory valueParser toString fix_ margin propertyName decl
               (snd entry) st)
          activeCategories st)) ->
  In w (result st)
  \/ exists name category node,
       In (name, category) activeCategories
       /\ includes (properties category) propertyName = true
       /\ In w (visit margin propertyName decl category node).
Proof.
  revert st. induction activeCategories as [|[name category] rest IH]; intros st Hin.
  - now left.
  - cbn [fold_left snd] in Hin. apply IH in Hin as [Hin | (n & c & node & Hc & Hi & Hv)].
    + rewrite checkCategory_unfold in Hin.
      destruct (includes (properties category) propertyName) eqn:Hi; [|now left].
      cbn [result] in Hin. apply in_app_or in Hin as [Hin|Hin]; [now left|].
      right. unfold visitAll in Hin. apply in_flat_map in Hin as (node & _ & Hv).
      exists name, category, node. repeat split; auto. now left.
    + right. exists n, c, node. repeat split; auto. now right.
Qed.

Lemma declOutcome_origin fix_ margin activeCategories decl (w : Warning) :
  In w (snd (declOutcome valueParser toString fix_ margin activeCategories decl)) ->
  exists name category node,
    In (name, category) activeCategories
    /\ includes (properties category) (JSString.toLowerCase (prop decl)) = true
    /\ In w (visit margin (JSString.toLowerCase (prop decl)) decl category node).
Proof.
  unfold declOutcome, checkDecl. destruct (_ || _); [intros []|].
  cbn [snd]. intros Hin. apply fold_categories_origin in Hin as [[]|H]. exact H.
Qed.

End OriginFacts.

(** X8. With the catalog loaded, every warning the pass adds is a problem
    of some visit: of a node, for a declaration of the document, by a
    category of the catalog that lists the property of that declaration in
    lower case.  A category that does not list it reports nothing for it. *)
Theorem pass_reports_from_catalog
    (valueParser : string -> list ValueNode) (toString : list ValueNode -> string)
    (tokensFileAt : string -> TokensFile) (options : RuleOptions) (fix_ : bool)
    (root : list Declaration) (activeCategories : JSObject TokenCategory)
    (w : Warning) :
  validateOptions (Some options) = true ->
  loadCategories tokensFileAt options = inr activeCategories ->
  In w (snd (ruleImpl valueParser toString tokensFileAt true (Some options) fix_
               root [])) ->
  exists decl name category node,
    In decl root
    /\ In (name, category) activeCategories
    /\ includes (properties category) (JSString.toLowerCase (prop decl)) = true
    /\ In w (visit (marginOf options) (JSString.toLowerCase (prop decl)) decl
               category node).
Proof.
  intros Hvalid Hload Hin.
  rewrite (ruleImpl_loaded _ _ _ _ _ _ _ _ Hvalid Hload), walkDecls_outcomes in Hin.
  cbn [snd app] in Hin. apply in_flat_map in Hin as (decl & Hdecl & Hin).
  apply declOutcome_origin in Hin as (name & category & node & Hc & Hi & Hv).
  exists decl, name, category, node. auto.
Qed.

Lemma pass_reports_from_catalog_witness :
  exists decl name category node,
    In decl [spacingDecl]
    /\ In (name, category)
         [("sizing", {| properties := ["width"]; tokens := [("16px", "--w")] |});
          ("spacing", {| properties := ["margin"]; tokens := [("16px", "--s")] |})]
    /\ includes (properties category) (JSString.toLowerCase (prop decl)) = true
    /\ In (Reported (exactMatchProblem "margin" "--s" "16px" 8 12))
         (visit (Finite 2) (JSString.toLowerCase (prop decl)) decl category node).
Proof.
  apply (pass_reports_from_catalog PlainValue.valueParser PlainValue.toString
           (fun _ =>
              ParsedObject
                (map rawEntry
                   [("sizing", {| properties := ["width"]; tokens := [("16px", "--w")] |});
                    ("spacing", {| properties := ["margin"]; tokens := [("16px", "--s")] |})]))
           defaultOptions false [spacingDecl]);
    [reflexivity | reflexivity | now left].
Defined.

(** ** Keys that no node can match *)

Lemma get_reachable (o : JSObject string) (key : string) :
  reachableKey key = true ->
  get (filter (fun entry => reachableKey (fst entry)) o) key = get o key.
Proof.
  intros Hkey. induction o as [|[k v] rest IH]; [reflexivity|].
  cbn [filter fst get]. destruct (reachableKey k) eqn:Hk.
  - cbn [get]. now rewrite IH.
  - rewrite IH. destruct (String.eqb_spec k key) as [->|]; [congruence | reflexivity].
Qed.

Lemma getTruthy_reachable (o : JSObject string) (key : string) :
  reachableKey key = true ->
  getTruthy (filter (fun entry => reachableKey (fst entry)) o) key = getTruthy o key.
Proof. intros H. unfold getTruthy. now rewrite get_reachable. Qed.

Lemma collectCloseMatches_reachable (m margin : number) (o : JSObject string) :
  collectCloseMatches m margin (filter (fun entry => reachableKey (fst entry)) o)
  = collectCloseMatches m margin o.
Proof.
  induction o as [|[k v] rest IH]; [reflexivity|].
  cbn [filter fst]. unfold reachableKey at 1.
  destruct (hasPxUnit k || (k =? "0")) eqn:Hk.
  - cbn [collectCloseMatches]. now rewrite Hk, IH.
  - cbn [collectCloseMatches]. now rewrite Hk, IH.
Qed.

Lemma skipped_withoutDeadKeys (category : TokenCategory) (node : ValueNode) :
  skipped (withoutDeadKeys category) node = skipped category node.
Proof.
  unfold skipped, withoutDeadKeys. cbn [tokens].
  now rewrite (getTruthy_reachable (tokens category) "0" eq_refl).
Qed.

Lemma not_skipped_reachable (category : TokenCategory) (node : ValueNode) :
  skipped category node = false -> reachableKey (node_value node) = true.
Proof.
  intros Hs. apply skipped_false in Hs as (_ & [m Hm] & _).
  exact (extractPxValue_Some_shape _ _ Hm).
Qed.

(** X9. Only tokens whose key has the px unit or is "0" play a part: the
    callback does the same with a category and with that category without
    its other tokens.  A node whose text has neither form is passed over,
    also when its very text is a key of the category. *)
Theorem dead_keys (toString : list ValueNode -> string) (fix_ : bool)
    (margin : number) (propertyName : string) (decl : Declaration)
    (category : TokenCategory) (node : ValueNode)
    (treeWith : string -> list ValueNode) (st : WalkState) :
  callback toString fix_ margin propertyName decl (withoutDeadKeys category)
    node treeWith st
  = callback toString fix_ margin propertyName decl category node treeWith st
  /\ (reachableKey (node_value node) = false ->
      callback toString fix_ margin propertyName decl category node treeWith st
      = (node_value node, st, true)).
Proof.
  split.
  - rewrite !callback_unfold, skipped_withoutDeadKeys.
    destruct (skipped category node) eqn:Hs; [reflexivity|].
    unfold closeReports, withoutDeadKeys. cbn [tokens].
    rewrite (getTruthy_reachable _ _ (not_skipped_reachable _ _ Hs)).
    destruct (getTruthy (tokens category) (node_value node)); [reflexivity|].
    destruct (extractPxValue (node_value node)) as [m|]; [|reflexivity].
    now rewrite collectCloseMatches_reachable.
  - intros Hdead. rewrite callback_unfold.
    destruct (skipped category node) eqn:Hs; [reflexivity|].
    apply not_skipped_reachable in Hs. congruence.
Qed.

Lemma dead_keys_witness :
  let category :=
    {| properties := ["margin"]; tokens := [("1rem", "--s-4"); ("16px", "--s-4")] |} in
  let st := {| declValue := "1rem"; result := [] |} in
  callback PlainValue.toString true (Finite 2) "margin" spacingDecl category
    (Node word "1rem" 0 []) (fun _ => []) st
  = ("1rem", st, true).
Proof.
  intros category st.
  exact (proj2 (dead_keys PlainValue.toString true (Finite 2) "margin" spacingDecl
                  category (Node word "1rem" 0 []) (fun _ => []) st) eq_refl).
Defined.

(** ** The span of a problem *)

Lemma substring_skip (a b : string) (n m : nat) :
  substring (String.length a + n) m (a ++ b) = substring n m b.
Proof. induction a as [|c a IH]; [reflexivity | exact IH]. Qed.

Lemma visit_span margin propertyName decl category node (p : Problem) :
  In (Reported p) (visit margin propertyName decl category node) ->
  index p = startIndexOf decl node /\ endIndex p = endIndexOf decl node.
Proof.
  rewrite visit_unfold.
  destruct (skipped category node); [intros []|].
  destruct (getTruthy (tokens category) (node_value node)).
  - intros [[= <-]|[]]. now split.
  - destruct (extractPxValue (node_value node)) as [m|]; [|intros []].
    destruct (JSNumber.gtb margin JSNumber.zero); [|intros []].
    unfold closeReports. destruct (sort byDiff _); [intros []|].
    intros [[= <-]|[]]. now split.
Qed.

(** X10. A problem is reported over the literal of its node: when the node
    stands in the value of the declaration at its source index, the text of
    the declaration (property, separator, value) between the index and the
    end index of the problem is the literal.  A missing or empty separator
    counts as a colon. *)
Theorem problem_span_is_literal (margin : number) (propertyName : string)
    (decl : Declaration) (category : TokenCategory) (node : ValueNode) (p : Problem) :
  In (Reported p) (visit margin propertyName decl category node) ->
  substring (node_sourceIndex node) (String.length (node_value node)) (value decl)
  = node_value node ->
  endIndex p = index p + String.length (node_value node)
  /\ index p
     = String.length (prop decl) + String.length (between decl) + node_sourceIndex node
  /\ substring (index p) (endIndex p - index p) (declText decl) = node_value node.
Proof.
  intros Hin Hnode. apply visit_span in Hin as [Hi He].
  unfold endIndexOf in He. rewrite <- Hi in He.
  split; [exact He|]. split; [exact Hi|].
  rewrite He. replace (index p + String.length (node_value node) - index p)
    with (String.length (node_value node)) by lia.
  rewrite Hi. unfold startIndexOf, declText.
  rewrite <- Nat.add_assoc, substring_skip, substring_skip. exact Hnode.
Qed.

Lemma problem_span_is_literal_witness :
  let decl :=
    {| prop := "padding"; value := "4px 16px"; raws_between := None;
       source_start := Some (1, 1) |} in
  let p := exactMatchProblem "padding" "--s-4" "16px" 12 16 in
  endIndex p = index p + 4
  /\ index p = 7 + 1 + 4
  /\ substring (index p) (endIndex p - index p) "padding:4px 16px" = "16px".
Proof.
  intros decl p.
  apply (problem_span_is_literal (Finite 2) "padding" decl
           {| properties := ["padding"]; tokens := [("16px", "--s-4")] |}
           (Node word "16px" 4 []) p);
    [now left | reflexivity].
Defined.

(** ** The case of the property name *)

Lemma lowerChar_idem (c : ascii) :
  JSString.lowerChar (JSString.lowerChar c) = JSString.lowerChar c.
Proof.
  unfold JSString.lowerChar.
  destruct ((65 <=? nat_of_ascii c)%nat && (nat_of_ascii c <=? 90)%nat) eqn:Hup.
  - apply andb_true_iff in Hup as [H1 H2]. apply Nat.leb_le in H1, H2.
    rewrite nat_ascii_embedding by lia.
    replace ((nat_of_ascii c + 32 <=? 90)%nat) with false
      by (symmetry; apply Nat.leb_gt; lia).
    now rewrite andb_false_r.
  - now rewrite Hup.
Qed.

Lemma toLowerCase_idem (s : string) :
  JSString.toLowerCase (JSString.toLowerCase s) = JSString.toLowerCase s.
Proof.
  induction s as [|c s IH]; [reflexivity|]. cbn. now rewrite lowerChar_idem, IH.
Qed.

Lemma toLowerCase_length (s : string) :
  String.length (JSString.toLowerCase s) = String.length s.
Proof. induction s as [|c s IH]; [reflexivity|]. cbn. now rewrite IH. Qed.

Lemma toLowerCase_truthy (s : string) :
  JSString.truthy (JSString.toLowerCase s) = JSString.truthy s.
Proof. now destruct s. Qed.

Lemma visit_same_offsets margin propertyName (d1 d2 : Declaration) category node :
  String.length (prop d1) = String.length (prop d2) ->
  raws_between d1 = raws_between d2 ->
  visit margin propertyName d1 category node
  = visit margin propertyName d2 category node.
Proof.
  intros Hprop Hbetween. rewrite !visit_unfold.
  unfold closeReports, endIndexOf, startIndexOf, between.
  now rewrite Hprop, Hbetween.
Qed.

Lemma checkCategory_same_offsets valueParser toString fix_ margin propertyName
    (d1 d2 : Declaration) category st :
  String.length (prop d1) = String.length (prop d2) ->
  raws_between d1 = raws_between d2 ->
  checkCategory valueParser toString fix_ margin propertyName d1 category st
  = checkCategory valueParser toString fix_ margin propertyName d2 category st.
Proof.
  intros Hprop Hbetween. rewrite !checkCategory_unfold.
  destruct (includes (properties category) propertyName); [|reflexivity].
  cbv zeta. f_equal. f_equal. unfold visitAll.
  apply flat_map_ext. intros node. now apply visit_same_offsets.
Qed.

Lemma fold_left_ext_in {A B : Type} (f g : A -> B -> A) (l : list B) (a : A) :
  (forall x y, f x y = g x y) -> fold_left f l a = fold_left g l a.
Proof.
  intros H. revert a. induction l as [|y l IH]; intros a; [reflexivity|].
  cbn. now rewrite H, IH.
Qed.

(** X11. The rule reads the property name without regard to case: a
    declaration gets the same warnings and the same value as the declaration
    that differs from it only in having its property name in lower case. *)
Theorem property_name_case
    (valueParser : string -> list ValueNode) (toString : list ValueNode -> string)
    (fix_ : bool) (margin : number) (activeCategories : JSObject TokenCategory)
    (decl : Declaration) (warnings : list Warning) :
  let mixed := checkDecl valueParser toString fix_ margin activeCategories decl warnings in
  let lower :=
    checkDecl valueParser toString fix_ margin activeCategories (lowerCased decl)
      warnings in
  snd lower = snd mixed
  /\ value (fst lower) = value (fst mixed)
  /\ fst lower = lowerCased (fst mixed).
Proof.
  intros mixed lower. subst mixed lower. unfold checkDecl.
  cbn [lowerCased prop value source_start].
  rewrite toLowerCase_truthy, toLowerCase_idem.
  destruct (_ || _); [cbn; auto|].
  cbn [fst snd].
  rewrite (fold_left_ext_in
             (fun st entry =>
                checkCategory valueParser toString fix_ margin
                  (JSString.toLowerCase (prop decl)) (lowerCased decl) (snd entry) st)
             (fun st entry =>
                checkCategory valueParser toString fix_ margin
                  (JSString.toLowerCase (prop decl)) decl (snd entry) st)).
  - repeat split; reflexivity.
  - intros st entry. apply checkCategory_same_offsets; [|reflexivity].
    apply toLowerCase_length.
Qed.

(** X12. A category applies through the lower-case names it lists only:
    when every property it lists has a capital letter, it takes no part,
    and the catalog with it does what the catalog without it does. *)
Theorem capitalised_property_never_applies
    (valueParser : string -> list ValueNode) (toString : list ValueNode -> string)
    (fix_ : bool) (margin : number) (before after : JSObject TokenCategory)
    (name : string) (category : TokenCategory)
    (decl : Declaration) (warnings : list Warning) :
  Forall (fun listed => JSString.toLowerCase listed <> listed) (properties category) ->
  checkDecl valueParser toString fix_ margin (before ++ (name, category) :: after)%list
    decl warnings
  = checkDecl valueParser toString fix_ margin (before ++ after)%list decl warnings.
Proof.
  intros Hcaps. unfold checkDecl. destruct (_ || _); [reflexivity|].
  rewrite !fold_left_app. cbn [fold_left snd].
  rewrite checkCategory_unfold.
  replace (includes (properties category) (JSString.toLowerCase (prop decl)))
    with false; [reflexivity|].
  symmetry. unfold includes. apply not_true_is_false. intros Hin.
  apply existsb_exists in Hin as (listed & Hl & Heq).
  apply String.eqb_eq in Heq. rewrite Forall_forall in Hcaps.
  apply (Hcaps listed Hl). rewrite Heq. apply toLowerCase_idem.
Qed.

Lemma capitalised_property_never_applies_witness :
  checkDecl PlainValue.valueParser PlainValue.toString false (Finite 2)
    ([] ++ [("spacing", {| properties := ["Margin"]; tokens := [("16px", "--s-4")] |})])%list
    spacingDecl []
  = checkDecl PlainValue.valueParser PlainValue.toString false (Finite 2)
      ([] ++ [])%list spacingDecl [].
Proof.
  apply (capitalised_property_never_applies PlainValue.valueParser PlainValue.toString
           false (Finite 2) [] [] "spacing"
           {| properties := ["Margin"]; tokens := [("16px", "--s-4")] |}
           spacingDecl []).
  repeat constructor. discriminate.
Defined.

(** ** The nearest token and the margin *)

(** X13. The token suggested first is a nearest one: no close match has a
    smaller [diff]; and among the close matches at that [diff] it is the
    one whose key comes first in the tokens of the category. *)
Theorem nearest_token_first (m margin : number) (entries : JSObject string)
    (bestMatch : CloseMatch) (others : list CloseMatch) :
  sort byDiff (collectCloseMatches m margin entries) = bestMatch :: others ->
  (forall c, In c (collectCloseMatches m margin entries) ->
             JSNumber.leb (diff bestMatch) (diff c) = true)
  /\ hd_error
       (filter (fun c => JSNumber.eqb (diff c) (diff bestMatch))
          (collectCloseMatches m margin entries))
     = Some bestMatch.
Proof.
  intros Hsort.
  pose proof (sort_sorted _ (collectCloseMatches_not_NaN m margin entries)) as Hsorted.
  pose proof (sort_perm (collectCloseMatches m margin entries)) as Hperm.
  rewrite Hsort in Hsorted, Hperm.
  assert (Hbest : JSNumber.isNaN (diff bestMatch) = false).
  { pose proof (collectCloseMatches_not_NaN m margin entries) as Hall.
    rewrite Forall_forall in Hall. apply Hall.
    apply (Permutation_in _ (Permutation_sym Hperm)). now left. }
  split.
  - intros c Hc. apply (Permutation_in _ Hperm) in Hc as [<-|Hc].
    + now apply leb_refl_number.
    + apply StronglySorted_inv in Hsorted as [_ Hall].
      rewrite Forall_forall in Hall. now apply Hall.
  - rewrite <- (sort_stable (diff bestMatch)), Hsort. cbn [filter].
    unfold JSNumber.eqb at 1. now rewrite (leb_refl_number _ Hbest).
Qed.

Lemma nearest_token_first_witness :
  let entries :=
    [("12px", "--far"); ("18px", "--b"); ("14px", "--a"); ("16.5px", "--near")] in
  (forall c, In c (collectCloseMatches (Finite 16) (Finite 4) entries) ->
             JSNumber.leb (Finite (1 # 2)) (diff c) = true)
  /\ hd_error
       (filter (fun c => JSNumber.eqb (diff c) (Finite (1 # 2)))
          (collectCloseMatches (Finite 16) (Finite 4) entries))
     = Some {| tokenPxValue := "16.5px"; tokenName := "--near"; diff := Finite (1 # 2) |}.
Proof.
  intros entries.
  exact (nearest_token_first (Finite 16) (Finite 4) entries
           {| tokenPxValue := "16.5px"; tokenName := "--near"; diff := Finite (1 # 2) |}
           [{| tokenPxValue := "18px"; tokenName := "--b"; diff := Finite 2 |};
            {| tokenPxValue := "14px"; tokenName := "--a"; diff := Finite 2 |};
            {| tokenPxValue := "12px"; tokenName := "--far"; diff := Finite 4 |}]
           eq_refl).
Defined.

(** X14. A larger margin loses no close match: what qualifies within a
    margin qualifies within any margin that is not smaller, with the same
    [diff]. *)
Theorem wider_margin_keeps_matches (m margin wider : number)
    (entries : JSObject string) (c : CloseMatch) :
  JSNumber.leb margin wider = true ->
  In c (collectCloseMatches m margin entries) ->
  In c (collectCloseMatches m wider entries).
Proof.
  intros Hwider Hin.
  apply collectCloseMatches_In in Hin as (key & name & t & Hentry & Ht & -> & Hpos & Hle).
  apply collectCloseMatches_In. exists key, name, t.
  repeat split; auto. exact (NumberFacts.leb_trans _ _ _ Hle Hwider).
Qed.

Lemma wider_margin_keeps_matches_witness :
  In {| tokenPxValue := "14px"; tokenName := "--a"; diff := Finite 2 |}
     (collectCloseMatches (Finite 16) (Finite 5) [("14px", "--a"); ("20px", "--b")]).
Proof.
  apply (wider_margin_keeps_matches (Finite 16) (Finite 2) (Finite 5));
    [reflexivity | now left].
Defined.

(** ** The check of the catalog *)

Lemma rawOf_fields (raw : RawCategory) p t :
  raw_properties raw = Some p -> raw_tokens raw = Some t ->
  raw = rawOf {| properties := p; tokens := t |}.
Proof. destruct raw as [rp rt]. cbn. now intros -> ->. Qed.

(** X16. The check of the catalog accepts exactly the catalogs whose
    categories all have both fields, and hands them on as they are: same
    names, same order, same properties and tokens.  Otherwise the message
    names the first category, in the order of the keys, that lacks a
    field. *)
Theorem catalog_check
    (activeCategories : JSObject RawCategory) :
  (forall checked,
      validateCategories activeCategories = inr checked
      <-> activeCategories = map rawEntry checked)
  /\ (forall good key raw rest,
        activeCategories = (map rawEntry good ++ (key, raw) :: rest)%list ->
        malformed raw ->
        validateCategories activeCategories
        = inl ("Token category '" ++ key
                 ++ "' is missing 'properties' or 'tokens' field.")).
Proof.
  split.
  - induction activeCategories as [|[key raw] rest IH]; intros checked.
    + cbn. split.
      * now intros [= <-].
      * destruct checked; [reflexivity | discriminate].
    + cbn [validateCategories].
      destruct (raw_properties raw) as [p|] eqn:Hp;
        [destruct (raw_tokens raw) as [t|] eqn:Ht|].
      * destruct (validateCategories rest) as [thrown|done] eqn:Hrest.
        { split; [discriminate|].
          destruct checked as [|[k c] more]; [discriminate|].
          cbn [map]. intros [= _ _ Hmore].
          apply (proj2 (IH more)) in Hmore. discriminate. }
        split.
        { intros [= <-]. cbn [map]. unfold rawEntry at 1. cbn [fst snd].
          rewrite (rawOf_fields raw p t Hp Ht). f_equal.
          now apply IH. }
        { destruct checked as [|[k c] more]; [discriminate|].
          cbn [map]. unfold rawEntry at 1. cbn [fst snd]. intros [= -> -> Hmore].
          apply (proj2 (IH more)) in Hmore. injection Hmore as <-.
          cbn in Hp, Ht. injection Hp as <-. injection Ht as <-.
          now destruct c. }
      * split; [discriminate|].
        destruct checked as [|[k c] more]; [discriminate|].
        cbn [map]. unfold rawEntry at 1. cbn [fst snd]. intros [= _ -> _].
        discriminate.
      * split; [discriminate|].
        destruct checked as [|[k c] more]; [discriminate|].
        cbn [map]. unfold rawEntry at 1. cbn [fst snd]. intros [= _ -> _].
        discriminate.
  - intros good key raw rest -> Hbad.
    induction good as [|[k c] good IH].
    + cbn [map app validateCategories].
      destruct Hbad as [-> | Hbad]; [reflexivity|].
      rewrite Hbad. now destruct (raw_properties raw).
    + cbn [map app validateCategories rawEntry fst snd rawOf raw_properties raw_tokens].
      now rewrite IH.
Qed.

Lemma catalog_check_witness :
  validateCategories
    (map rawEntry [("spacing", {| properties := ["margin"]; tokens := [] |})]
     ++ ("radius", {| raw_properties := None; raw_tokens := Some [] |})
        :: [("late", {| raw_properties := None; raw_tokens := None |})])%list
  = inl "Token category 'radius' is missing 'properties' or 'tokens' field.".
Proof.
  apply (proj2 (catalog_check _)
           [("spacing", {| properties := ["margin"]; tokens := [] |})]
           "radius" {| raw_properties := None; raw_tokens := Some [] |}
           [("late", {| raw_properties := None; raw_tokens := None |})] eq_refl).
  now left.
Defined.


(** ** The walk in fix mode *)

(** X17. Fix mode does not change what a walk reports: the problems are
    those of the walk without fix mode, which leaves the tree and the value
    alone.  In fix mode the walk keeps the nodes, their types and their
    source indices, and gives every node with an exact match the name of its
    token as text; when some text changed, the value of the declaration is
    the serialized tree. *)
Theorem fix_mode_walk (toString : list ValueNode -> string) (margin : number)
    (propertyName : string) (decl : Declaration) (category : TokenCategory)
    (parsedValue : list ValueNode) (st : WalkState) :
  let fixing :=
    walk (callback toString true margin propertyName decl category) parsedValue st in
  let checking :=
    walk (callback toString false margin propertyName decl category) parsedValue st in
  result (snd fixing) = result (snd checking)
  /\ fst checking = parsedValue
  /\ declValue (snd checking) = declValue st
  /\ map (fun node => (node_type node, node_sourceIndex node))
        (flat_map visitOrder (fst fixing))
     = map (fun node => (node_type node, node_sourceIndex node))
         (flat_map visitOrder parsedValue)
  /\ map node_value (flat_map visitOrder (fst fixing))
     = map (fun node =>
              match exactToken category node with
              | Some tokenToSuggest => tokenToSuggest
              | None => node_value node
              end)
         (flat_map visitOrder parsedValue)
  /\ (declValue (snd fixing) = declValue st
      \/ declValue (snd fixing) = toString (fst fixing)).
Proof.
  intros fixing checking. subst fixing checking. rewrite !walk_walked.
  cbn [fst snd result declValue].
  rewrite rewritesIn_no_fix, (fixNodes_same false category parsedValue)
    by apply rewritesIn_no_fix.
  repeat split.
  - now apply visitOrder_fixNodes.
  - apply visitOrder_fixNodes. intros t v i children children'.
    cbn [node_value]. apply fixedValue_fix.
  - destruct (rewritesIn true category parsedValue); [now right | now left].
Qed.

(** ** The numbers read from values *)

(** X18. A value has the px unit exactly when it ends with px.  When
    [extractPxValue] reads a number, the number is not NaN, and the value is
    "0", read as 0, or ends with px, and the number is what [parseFloat]
    makes of what precedes the unit; so a value shorter than two characters
    other than "0" is never read as a number. *)
Theorem extractPxValue_inversion :
  (forall raw, hasPxUnit raw = true <-> exists numericPart, raw = numericPart ++ "px")
  /\ (forall raw n,
        extractPxValue raw = Some n ->
        JSNumber.isNaN n = false
        /\ ((raw = "0" /\ n = Finite 0)
            \/ exists numericPart,
                 raw = numericPart ++ "px" /\ n = JSNumber.parseFloat numericPart))
  /\ (forall raw,
        String.length raw < 2 -> raw <> "0" -> extractPxValue raw = None).
Proof.
  assert (Hsuffix : forall raw,
             hasPxUnit raw = true <-> exists numericPart, raw = numericPart ++ "px").
  { intros raw. split.
    - intros H. eexists. apply (hasPxUnit_split raw H).
    - intros [numericPart ->]. apply hasPxUnit_app. }
  split; [exact Hsuffix|]. split.
  - intros raw n Hread. split; [exact (extractPxValue_not_NaN raw n Hread)|].
    destruct (hasPxUnit raw) eqn:Hpx.
    + right. apply Hsuffix in Hpx as [numericPart ->]. exists numericPart.
      split; [reflexivity|]. rewrite extractPxValue_px in Hread.
      destruct (JSNumber.isNaN _); [discriminate | now injection Hread].
    + left. unfold extractPxValue in Hread. rewrite Hpx in Hread. cbn in Hread.
      destruct (String.eqb_spec raw "0"); [|discriminate].
      split; [assumption | now injection Hread].
  - intros raw Hshort Hzero. apply extractPxValue_other; [|exact Hzero].
    destruct (hasPxUnit raw) eqn:Hpx; [|reflexivity].
    apply Hsuffix in Hpx as [numericPart ->]. rewrite length_app in Hshort.
    cbn in Hshort. lia.
Qed.

Lemma extractPxValue_inversion_witness :
  JSNumber.isNaN (Finite (-4)) = false
  /\ (("-4px" = "0" /\ Finite (-4) = Finite 0)
      \/ exists numericPart,
           "-4px" = numericPart ++ "px" /\ Finite (-4) = JSNumber.parseFloat numericPart).
Proof.
  exact (proj1 (proj2 extractPxValue_inversion) "-4px" (Finite (-4)) eq_refl).
Defined.
